(** * Coastline ring reconstruction: a shallow embedding

    The definitions below embed [src/scripts/process-coastline.ts]
    (ring builder, area filter, ranking) and the output-merge script that
    prepends the hand-traced mainland polygon.  JavaScript numbers are
    IEEE-754 binary64 values and are modelled by Rocq's primitive floats;
    [Map<string, number[]>] is a [gmap string (list nat)], [Set<number>] a
    [gset nat], arrays are lists. *)

From Stdlib Require Import ZArith QArith Qround Qabs Qpower Lqa.
From Stdlib Require Import Floats Ascii DecimalString DecimalPos DecimalN.
From stdpp Require Import gmap strings list fin_maps sorting.

Set Warnings "-inexact-float".

(** ** Numbers and their decimal rendering *)

Module Num.

(** The exact rational value of the magnitude [m * 2^e] of a finite float. *)
Definition magnitude (m : positive) (e : Z) : Q :=
  (inject_Z (Z.pos m) * 2 ^ e)%Q.

(** The exact value of a float, when it is a number. *)
Definition value (x : float) : option Q :=
  match Prim2SF x with
  | S754_zero _ => Some 0%Q
  | S754_finite s m e => Some (if s then (- magnitude m e)%Q else magnitude m e)
  | S754_infinity _ | S754_nan => None
  end.

(** [x < 0] as JavaScript evaluates it on the mathematical value. *)
Definition negative (x : float) : bool :=
  match Prim2SF x with
  | S754_finite s _ _ => s
  | _ => false
  end.

Definition decimal (n : Z) : string :=
  NilZero.string_of_uint (N.to_uint (Z.to_N n)).

Definition digitChar (d : Z) : Ascii.ascii :=
  Ascii.ascii_of_N (48 + Z.to_N d).

(** The [k] low decimal digits of [n], most significant first, in front
    of [acc]. *)
Fixpoint lowDigits (k : nat) (n : Z) (acc : string) : string :=
  match k with
  | O => acc
  | S k' => lowDigits k' (n / 10) (String (digitChar (n mod 10)) acc)
  end.

(** The integer [n] for which [n / 10^6 - v] is as close to zero as
    possible, the larger one on a tie (ECMA-262, Number.prototype.toFixed,
    for a non-negative [v]). *)
Definition nearestMicro (v : Q) : Z :=
  Qfloor (v * inject_Z (10 ^ 6) + (1 # 2))%Q.

(** The digits of [n] with a point before the last six; at least one
    digit stands before the point. *)
Definition fixed6 (n : Z) : string :=
  (decimal (n / 10 ^ 6) +:+ "." +:+ lowDigits 6 (n mod 10 ^ 6) "")%Z.

(** *** Number::toString for magnitudes of at least 10^21

    [toFixed] falls back on the shortest decimal that reads back as the
    same double, printed in exponent form.  Such a double is the integer
    [m * 2^e] with [e > 0]; every real strictly within half a unit in the
    last place of it (the bounds included when [m] is even) rounds to it. *)
Section Shortest.
Variable m : positive.
Variable e : Z.

Let X : Z := (Z.pos m * 2 ^ e)%Z.
Let above : Z := (2 ^ (e - 1))%Z.
Let below : Z := (if (Z.pos m =? 2 ^ 52) then 2 ^ (e - 2) else 2 ^ (e - 1))%Z.

Definition readsBack (v : Z) : bool :=
  (if Z.even (Z.pos m)
   then (X - below <=? v) && (v <=? X + above)
   else (X - below <? v) && (v <? X + above))%Z.

(** The [k]-digit candidates [s * 10^p] next to [X]. *)
Definition candidates (k p : Z) : list (Z * Z) :=
  filter (fun sp : Z * Z =>
            Is_true ((10 ^ (k - 1) <=? sp.1) && (sp.1 <? 10 ^ k)
                     && readsBack (sp.1 * 10 ^ sp.2))%Z)
         [(X / 10 ^ p, p); (X / 10 ^ p + 1, p)]%Z.

Definition closer (a b : Z * Z) : Z * Z :=
  let da := Z.abs (a.1 * 10 ^ a.2 - X) in
  let db := Z.abs (b.1 * 10 ^ b.2 - X) in
  if (da <? db)%Z then a
  else if (db <? da)%Z then b
  else if Z.even a.1 then a else b.

Definition best (k : Z) : option (Z * Z) :=
  let width := Z.of_nat (String.length (decimal X)) in
  match candidates k (width - k) ++ candidates k (width + 1 - k) with
  | [] => None
  | c :: cs => Some (fold_left closer cs c)
  end.

Fixpoint shortest (tries : nat) (k : Z) : Z * Z :=
  match tries with
  | O => (X, 0%Z)
  | S tries' =>
      match best k with
      | Some c => c
      | None => shortest tries' (k + 1)
      end
  end.

Definition exponentForm : string :=
  let '(s, p) := shortest 17 1 in
  let digits := decimal s in
  let n := (Z.of_nat (String.length digits) + p)%Z in
  match digits with
  | String d EmptyString => String d ("e+" +:+ decimal (n - 1))
  | String d rest => String d ("." +:+ rest +:+ "e+" +:+ decimal (n - 1))
  | EmptyString => EmptyString
  end.
End Shortest.

(** [x.toFixed(6)]. *)
Definition toFixed6 (x : float) : string :=
  match Prim2SF x with
  | S754_nan => "NaN"
  | S754_infinity false => "Infinity"
  | S754_infinity true => "-Infinity"
  | S754_zero _ => fixed6 0
  | S754_finite s m e =>
      (if s then "-" else "") +:+
      (if Qle_bool (inject_Z (10 ^ 21)) (magnitude m e)
       then exponentForm m e
       else fixed6 (nearestMicro (magnitude m e)))
  end.

End Num.

(** ** Coordinates and their keys *)

(** A coordinate is the two-element array [[lon, lat]]. *)
Definition coord : Type := float * float.

(** [`${coord[0].toFixed(6)},${coord[1].toFixed(6)}`] *)
Definition coordKey (c : coord) : string :=
  Num.toFixed6 c.1 +:+ "," +:+ Num.toFixed6 c.2.

(** [a[0]] and [a[a.length - 1]].  Every array these are applied to holds
    at least two coordinates (lemmas [front_app], [back_app] and the guards
    of the builder), so the default stands for a read that never happens. *)
Definition front (a : list coord) : coord := hd (0, 0)%float a.
Definition back (a : list coord) : coord := List.last a (0, 0)%float.

(** ** The ring builder *)

Abbreviation endpointIndex := (gmap string (list nat)).

(** [if (!index.has(key)) index.set(key, []); index.get(key)!.push(i)] *)
Definition pushAt (key : string) (i : nat) (index : endpointIndex) : endpointIndex :=
  <[key := default [] (index !! key) ++ [i]]> index.

(** [index.get(key) || []] *)
Definition candidatesAt (index : endpointIndex) (key : string) : list nat :=
  default [] (index !! key).

(** The body of [segments.forEach((seg, i) => ...)]. *)
Definition addEndpoints (ix : endpointIndex * endpointIndex) (i : nat)
    (seg : list coord) : endpointIndex * endpointIndex :=
  if bool_decide (length seg < 2) then ix
  else (pushAt (coordKey (front seg)) i ix.1, pushAt (coordKey (back seg)) i ix.2).

Fixpoint indexFrom (i : nat) (segs : list (list coord))
    (ix : endpointIndex * endpointIndex) : endpointIndex * endpointIndex :=
  match segs with
  | [] => ix
  | seg :: rest => indexFrom (S i) rest (addEndpoints ix i seg)
  end.

Definition buildIndexes (segments : list (list coord)) : endpointIndex * endpointIndex :=
  indexFrom 0 segments (∅, ∅).

Definition maxIterations : nat := 10000.

(** What one pass through the body of the [while] loop does: go round
    again with one more segment consumed, or [break] with or without a
    ring pushed. *)
Inductive outcome : Type :=
  | Continue (candIdx : nat) (ring : list coord)
  | Break (pushed : option (list coord)).

(** The state of the outer loop: the rings pushed so far and the consumed
    segment indices. *)
Record builder : Type := Builder {
  rings : list (list coord);
  used : gset nat
}.

Section RingBuilder.
Variable segments : list (list coord).
Variable startIndex endIndex : endpointIndex.

(** [segments[i]] *)
Definition segmentAt (i : nat) : list coord := default [] (segments !! i).

(** [for (const candIdx of candidates) { if (used.has(candIdx)) continue; ...; break; }] *)
Definition firstUnused (consumed : gset nat) (candidates : list nat) : option nat :=
  List.find (fun candIdx => bool_decide (candIdx ∉ consumed)) candidates.

(** The segment to append at [endKey] and the direction it is taken in:
    a forward one from the starts index, else a reversed one from the
    ends index. *)
Definition continuation (consumed : gset nat) (endKey : string)
    : option (nat * list coord) :=
  match firstUnused consumed (candidatesAt startIndex endKey) with
  | Some candIdx => Some (candIdx, segmentAt candIdx)
  | None =>
      match firstUnused consumed (candidatesAt endIndex endKey) with
      | Some candIdx => Some (candIdx, rev (segmentAt candIdx))
      | None => None
      end
  end.

Definition loopBody (consumed : gset nat) (ring : list coord) : outcome :=
  let endKey := coordKey (back ring) in
  if bool_decide (coordKey (front ring) = endKey) && bool_decide (3 < length ring)
  then Break (Some ring)
  else
    match continuation consumed endKey with
    | Some (candIdx, candSeg) => Continue candIdx (ring ++ tail candSeg)
    | None =>
        if bool_decide (10 < length ring)
        then Break (Some (ring ++ [front ring]))
        else Break None
    end.

(** [while (iterations++ < maxIterations) { ... }] with [budget] passes
    left: the consumed set at the exit and the ring pushed, if any. *)
Fixpoint extend (budget : nat) (consumed : gset nat) (ring : list coord)
    : gset nat * option (list coord) :=
  match budget with
  | O => (consumed, None)
  | S budget' =>
      match loopBody consumed ring with
      | Continue candIdx ring' => extend budget' ({[candIdx]} ∪ consumed) ring'
      | Break pushed => (consumed, pushed)
      end
  end.

(** The body of [for (let i = 0; i < segments.length; i++)]. *)
Definition visit (b : builder) (i : nat) : builder :=
  if bool_decide (i ∈ used b) then b
  else
    let seg := segmentAt i in
    if bool_decide (length seg < 2) then b
    else if bool_decide (coordKey (front seg) = coordKey (back seg))
    then Builder (rings b ++ [seg]) ({[i]} ∪ used b)
    else
      let '(consumed, pushed) := extend maxIterations ({[i]} ∪ used b) seg in
      Builder (rings b ++ option_list pushed) consumed.

Definition build : builder :=
  foldl visit (Builder [] ∅) (seq 0 (length segments)).
End RingBuilder.

Definition mergeSegments (segments : list (list coord)) : list (list coord) :=
  let ix := buildIndexes segments in
  rings (build segments ix.1 ix.2).

(** ** Area, significance filter and ranking *)

(** [for (let i = 0; i < ring.length - 1; i++) { area += ...; area -= ...; }]
    with [n] passes left, at index [i]. *)
Fixpoint shoelaceLoop (ring : list coord) (n i : nat) (area : float) : float :=
  match n with
  | O => area
  | S n' =>
      let p := nth i ring (0, 0)%float in
      let q := nth (S i) ring (0, 0)%float in
      shoelaceLoop ring n' (S i) (area + p.1 * q.2 - q.1 * p.2)%float
  end.

Definition calculateRingArea (ring : list coord) : float :=
  abs (shoelaceLoop ring (length ring - 1) 0 0 / 2).



(** The signed sum as the specification words it: over the consecutive
    pairs [(x_i, y_i), (x_i+1, y_i+1)] of the ring, [x_i * y_i+1] added and
    [x_i+1 * y_i] subtracted, accumulated from the left in binary64. *)
Fixpoint signedSum (acc : float) (ring : list coord) : float :=
  match ring with
  | p :: (q :: _) as rest => signedSum (acc + p.1 * q.2 - q.1 * p.2)%float rest
  | _ => acc
  end.

(** [rings.filter(ring => calculateRingArea(ring) > 0.0001)] *)
Definition significant (ring : list coord) : bool :=
  (0.0001 <? calculateRingArea ring)%float.

Definition significantRings (rings : list (list coord)) : list (list coord) :=
  List.filter significant rings.

(** [Array.prototype.sort(comparefn)].  ECMA-262 makes the sort stable and,
    for a consistent comparator, leaves the result no freedom, so any stable
    algorithm gives it; this one inserts each element, from the last to the
    first, in front of the sorted rest and moves it right past every element
    that compares strictly before it ([comparefn(x, y) > 0]; a [NaN] or zero
    result leaves the two in their order). *)
Fixpoint insertBy {A : Type} (comparefn : A -> A -> float) (x : A) (sorted : list A) : list A :=
  match sorted with
  | [] => [x]
  | y :: rest =>
      if (0 <? comparefn x y)%float then y :: insertBy comparefn x rest
      else x :: sorted
  end.

Definition sortBy {A : Type} (comparefn : A -> A -> float) (a : list A) : list A :=
  foldr (insertBy comparefn) [] a.

(** [(a, b) => calculateRingArea(b) - calculateRingArea(a)] *)
Definition byAreaDescending (a b : list coord) : float :=
  (calculateRingArea b - calculateRingArea a)%float.

(** [[...significantRings].sort(...).slice(0, 50)] *)
Definition mainLandFeatures (rings : list (list coord)) : list (list coord) :=
  take 50 (sortBy byAreaDescending (significantRings rings)).

(** *** The OSM input and the GeoJSON output *)

Module Osm.
Record OsmGeometryPoint : Type := { lat : float; lon : float }.

(** [geometry] is [None] for an element that has none (a falsy
    [element.geometry]). *)
Record OsmWay : Type := {
  type : string;
  id : float;
  geometry : option (list OsmGeometryPoint);
  nodes : list float
}.
End Osm.

Module GeoJson.
Inductive value : Type :=
  | Num (x : float)
  | Str (s : string).

Record Geometry : Type := { gtype : string; coordinates : list (list coord) }.

Record Feature : Type := {
  ftype : string;
  properties : gmap string value;
  geometry : Geometry
}.
End GeoJson.

(** The array index [i] as a number. *)
Definition indexNumber (i : nat) : float :=
  of_uint63 (Uint63.of_Z (Z.of_nat i)).

(** [osmData.elements] to [segments]: the ways that have a geometry, each
    point as [[p.lon, p.lat]]. *)
Definition extractSegments (elements : list Osm.OsmWay) : list (list coord) :=
  omap (fun element =>
          if bool_decide (Osm.type element = "way")
          then (fun g => map (fun p => (Osm.lon p, Osm.lat p)) g) <$> Osm.geometry element
          else None)
       elements.

(** The features of [combinedGeojson]. *)
Definition landFeature (i : nat) (ring : list coord) : GeoJson.Feature :=
  {| GeoJson.ftype := "Feature";
     GeoJson.properties :=
       <["area" := GeoJson.Num (calculateRingArea ring)]>
         (<["id" := GeoJson.Num (indexNumber i)]> ∅);
     GeoJson.geometry := {| GeoJson.gtype := "Polygon"; GeoJson.coordinates := [ring] |} |}.

(** What [processCoastlineData] writes, as a function of the parsed input. *)
Definition processCoastlineData (elements : list Osm.OsmWay) : list GeoJson.Feature :=
  imap landFeature (mainLandFeatures (mergeSegments (extractSegments elements))).

(** ** Output merge: the mainland polygon in front of the land features *)

Definition MAINLAND_POLYGON : list coord :=
  [ (24.7828, 60.10); (24.7828, 60.30); (25.26, 60.30); (25.26, 60.20);
    (25.22, 60.20); (25.20, 60.195); (25.17, 60.19);
    (25.14, 60.185); (25.10, 60.18); (25.07, 60.175); (25.05, 60.175); (25.03, 60.172);
    (25.02, 60.17); (25.00, 60.168); (24.98, 60.165);
    (24.96, 60.162); (24.94, 60.158); (24.92, 60.155); (24.90, 60.153); (24.88, 60.152);
    (24.87, 60.155);
    (24.86, 60.158); (24.85, 60.162); (24.84, 60.168); (24.83, 60.175); (24.82, 60.182);
    (24.81, 60.19); (24.80, 60.20);
    (24.7828, 60.20); (24.7828, 60.10) ]%float.

Definition mainlandFeature : GeoJson.Feature :=
  {| GeoJson.ftype := "Feature";
     GeoJson.properties :=
       <["name" := GeoJson.Str "Helsinki Mainland"]> (<["id" := GeoJson.Str "mainland"]> ∅);
     GeoJson.geometry :=
       {| GeoJson.gtype := "Polygon"; GeoJson.coordinates := [MAINLAND_POLYGON] |} |}.

(** [({ ...f, properties: { ...f.properties, id: `island-${i}`, name: `Island ${i}` } })] *)
Definition relabel (i : nat) (f : GeoJson.Feature) : GeoJson.Feature :=
  {| GeoJson.ftype := GeoJson.ftype f;
     GeoJson.properties :=
       <["name" := GeoJson.Str ("Island " +:+ Num.decimal (Z.of_nat i))]>
         (<["id" := GeoJson.Str ("island-" +:+ Num.decimal (Z.of_nat i))]>
            (GeoJson.properties f));
     GeoJson.geometry := GeoJson.geometry f |}.

Definition combinedFeatures (islands : list GeoJson.Feature) : list GeoJson.Feature :=
  mainlandFeature :: imap relabel islands.

(** ** What a run consumes

    These follow the builder without being part of it: they record which
    segments each started ring consumed. *)

Section Provenance.
Variable segments : list (list coord).
Variable startIndex endIndex : endpointIndex.

(** The state after [n] passes of the [while] loop that all went round
    again; [None] when an earlier pass left the loop. *)
Fixpoint passes (n : nat) (consumed : gset nat) (ring : list coord)
    : option (gset nat * list coord) :=
  match n with
  | O => Some (consumed, ring)
  | S n' =>
      match loopBody segments startIndex endIndex consumed ring with
      | Continue candIdx ring' => passes n' ({[candIdx]} ∪ consumed) ring'
      | Break _ => None
      end
  end.

(** The indices [extend] hands to [used.add], in order. *)
Fixpoint extendTrace (budget : nat) (consumed : gset nat) (ring : list coord) : list nat :=
  match budget with
  | O => []
  | S budget' =>
      match loopBody segments startIndex endIndex consumed ring with
      | Continue candIdx ring' => candIdx :: extendTrace budget' ({[candIdx]} ∪ consumed) ring'
      | Break _ => []
      end
  end.

(** A visit that starts a ring: the segments it consumes, the seed first,
    and the ring it pushes, if any.  [None] for a visit that skips [i]. *)
Definition attempt (b : builder) (i : nat) : option (list nat * option (list coord)) :=
  if bool_decide (i ∈ used b) then None
  else
    let seg := segmentAt segments i in
    if bool_decide (length seg < 2) then None
    else if bool_decide (coordKey (front seg) = coordKey (back seg))
    then Some ([i], Some seg)
    else
      Some (i :: extendTrace maxIterations ({[i]} ∪ used b) seg,
            (extend segments startIndex endIndex maxIterations ({[i]} ∪ used b) seg).2).

Fixpoint attemptsFrom (b : builder) (indices : list nat)
    : list (list nat * option (list coord)) :=
  match indices with
  | [] => []
  | i :: rest =>
      option_list (attempt b i)
        ++ attemptsFrom (visit segments startIndex endIndex b i) rest
  end.
End Provenance.

Definition attempts (segments : list (list coord)) : list (list nat * option (list coord)) :=
  let ix := buildIndexes segments in
  attemptsFrom segments ix.1 ix.2 (Builder [] ∅) (seq 0 (length segments)).

(** [stitched segments trace ring]: [ring] is the first segment of [trace]
    followed by the others, each in one of its two directions and without
    its leading point. *)
Inductive stitched (segments : list (list coord)) : list nat -> list coord -> Prop :=
  | stitched_seed i :
      stitched segments [i] (segmentAt segments i)
  | stitched_forward trace ring c :
      stitched segments trace ring ->
      stitched segments (trace ++ [c]) (ring ++ tail (segmentAt segments c))
  | stitched_reversed trace ring c :
      stitched segments trace ring ->
      stitched segments (trace ++ [c]) (ring ++ tail (rev (segmentAt segments c))).

(** ** Inputs used below *)

Definition unitSquare : list coord :=
  [(0, 0); (1, 0); (1, 1); (0, 1); (0, 0)]%float.

(** One way from (0,0) to (1,0) followed by 10000 copies of the way from
    (1,0) to (2,0): the ring seeded by the first swings between (1,0) and
    (2,0), one copy a pass, and never comes back to (0,0). *)
Definition swinging (copies : nat) : list (list coord) :=
  [(0, 0); (1, 0)]%float :: replicate copies [(1, 0); (2, 0)]%float.

(** ** Notions the statements use *)

(** A ring counts as closed when its end points have the same key. *)
Definition keyClosed (ring : list coord) : Prop :=
  coordKey (front ring) = coordKey (back ring).

(** The indices, from [i] on, of the segments of at least two points whose
    [endpoint] has key [key]: what an endpoint index holds at [key]. *)
Fixpoint keyed (endpoint : list coord -> coord) (key : string) (i : nat)
    (segs : list (list coord)) : list nat :=
  match segs with
  | [] => []
  | seg :: rest =>
      (if bool_decide (2 ≤ length seg ∧ coordKey (endpoint seg) = key) then [i] else [])
        ++ keyed endpoint key (S i) rest
  end.

(** [c] does not occur in [s]. *)
Fixpoint avoids (c : Ascii.ascii) (s : string) : Prop :=
  match s with
  | EmptyString => True
  | String x rest => x ≠ c ∧ avoids c rest
  end.

(** The sign and the number of millionths the magnitude of [x] rounds to:
    what [toFixed(6)] prints of a number below 10^21 in magnitude. *)
Definition quantum (x : float) : option (bool * Z) :=
  match Prim2SF x with
  | S754_zero _ => Some (false, 0%Z)
  | S754_finite s m e =>
      if Qle_bool (inject_Z (10 ^ 21)) (Num.magnitude m e) then None
      else Some (s, Num.nearestMicro (Num.magnitude m e))
  | _ => None
  end.

(** The components of [a] and [b] are numbers less than [tolerance] apart. *)
Definition within (tolerance : Q) (a b : coord) : Prop :=
  ∃ xa ya xb yb,
    Num.value a.1 = Some xa ∧ Num.value a.2 = Some ya
    ∧ Num.value b.1 = Some xb ∧ Num.value b.2 = Some yb
    ∧ (Qabs (xa - xb) < tolerance)%Q ∧ (Qabs (ya - yb) < tolerance)%Q.

(** The index a segment moves to when one more segment is put in at
    position [at_]. *)
Definition skip (at_ : nat) (i : nat) : nat :=
  if bool_decide (i < at_) then i else S i.

(** A number of sign [sx], or the infinity of that sign: not a zero and
    not NaN. *)
Definition signedNonzero (sx : bool) (r : spec_float) : Prop :=
  match r with
  | S754_finite s _ _ | S754_infinity s => s = sx
  | _ => False
  end.

(** A positive number or plus infinity. *)
Definition positiveSF (x : spec_float) : Prop :=
  match x with
  | S754_finite false _ _ | S754_infinity false => True
  | _ => False
  end.

(** The value of a positive float in units of [2^-1074], the spacing of the
    smallest binary64 numbers; plus infinity counts as [2^2098], above every
    number. *)
Definition scaled (x : spec_float) : Z :=
  match x with
  | S754_finite false m e => (Z.pos m * 2 ^ (e + 1074))%Z
  | S754_infinity false => (2 ^ 2098)%Z
  | _ => 0%Z
  end.

Definition areaWeight (ring : list coord) : Z := scaled (Prim2SF (calculateRingArea ring)).

(** [x] may stand before [y] in a list sorted by descending weight. *)
Definition heavierFirst {A : Type} (weight : A -> Z) (x y : A) : Prop :=
  (weight y <= weight x)%Z.

Definition isDigit (c : Ascii.ascii) : Prop :=
  (48 <= Ascii.N_of_ascii c <= 57)%N.

(** [c] is listed somewhere in one of the two indexes. *)
Definition listed (startIndex endIndex : endpointIndex) (c : nat) : Prop :=
  ∃ key, c ∈ candidatesAt startIndex key ∨ c ∈ candidatesAt endIndex key.

(** The consumed sets of a run and of the run with one more segment put
    in at [at_] hold the same segments. *)
Definition sameConsumed (at_ : nat) (consumed consumed' : gset nat) : Prop :=
  ∀ i, i ∈ consumed ↔ skip at_ i ∈ consumed'.

(** The ring seeded by the first way of [swinging] after [j] passes: it
    starts at the origin, ends at (1,0) or (2,0), and has consumed the
    segments [0..j]. *)
Definition swung (j : nat) (consumed : gset nat) (ring : list coord) : Prop :=
  (∀ x, x ∈ consumed ↔ x ≤ j)
  ∧ front ring = (0, 0)%float
  ∧ back ring = (if Nat.even j then (1, 0)%float else (2, 0)%float)
  ∧ length ring = j + 2.

(** Every coordinate of [ring] is a coordinate of some segment of
    [segments]. *)
Definition fromInput (segments : list (list coord)) (ring : list coord) : Prop :=
  ∀ c, c ∈ ring -> ∃ seg, seg ∈ segments ∧ c ∈ seg.


(** * The viewer: travel-time filter and zoom levels *)

(** [TravelTimeRange] of components/TravelTimeFilter.tsx; [max] is [None]
    for [null], no upper bound. *)
Module Range.
Record TravelTimeRange : Type := { min : float; max : option float }.
End Range.

(** The two thumb positions, [{ min, max }]. *)
Module Slider.
Record positions : Type := { min : float; max : float }.
End Slider.

Definition SLIDER_MIN : float := 0.
Definition SLIDER_MAX : float := 90.

Definition rangeToSlider (value : option Range.TravelTimeRange) : Slider.positions :=
  match value with
  | None => {| Slider.min := SLIDER_MIN; Slider.max := SLIDER_MAX |}
  | Some value =>
      {| Slider.min := Range.min value;
         Slider.max := default SLIDER_MAX (Range.max value) |}
  end.

(** [max >= SLIDER_MAX] is written [SLIDER_MAX <=? max]: both are false
    when [max] is NaN. *)
Definition sliderToRange (min max : float) : option Range.TravelTimeRange :=
  if ((min <=? SLIDER_MIN) && (SLIDER_MAX <=? max))%float then None
  else Some {| Range.min := min;
               Range.max := if (SLIDER_MAX <=? max)%float then None else Some max |}.

(** [travelTimeInRange] of the buildings layer. *)
Definition travelTimeInRange (minutes : float) (range : Range.TravelTimeRange) : bool :=
  if (minutes <? Range.min range)%float then false
  else match Range.max range with
       | None => true
       | Some max => (minutes <=? max)%float
       end.

Definition BASE_H3_RESOLUTION : float := 9.

Definition getH3ResolutionForZoom (zoom : float) : float :=
  if (zoom <=? 10)%float then 6
  else if (zoom <=? 12)%float then 7
  else if (zoom <=? 13)%float then 8
  else BASE_H3_RESOLUTION.

(** [range] lies within [wider]. *)
Definition within_range (range wider : Range.TravelTimeRange) : Prop :=
  (Range.min wider <=? Range.min range)%float = true
  ∧ match Range.max range, Range.max wider with
    | _, None => True
    | Some m, Some m' => (m <=? m')%float = true
    | None, Some _ => False
    end.

(** * Checks of the number rendering *)

Example toFixed6_one : Num.toFixed6 1 = "1.000000".
Proof. vm_compute. reflexivity. Qed.

Example toFixed6_lon : Num.toFixed6 24.7828 = "24.782800".
Proof. vm_compute. reflexivity. Qed.

Example toFixed6_neg_tiny : Num.toFixed6 (-0x1p-30) = "-0.000000".
Proof. vm_compute. reflexivity. Qed.

Example toFixed6_half_up : Num.toFixed6 0x1.8p-1 = "0.750000"
  /\ Num.toFixed6 0x1p-1 = "0.500000" /\ Num.toFixed6 1234567.5 = "1234567.500000".
Proof. vm_compute. repeat split. Qed.

Example toFixed6_large : Num.toFixed6 1e21 = "1e+21"
  /\ Num.toFixed6 0x1p70 = "1.1805916207174113e+21"
  /\ Num.toFixed6 (-1.5e300) = "-1.5e+300"
  /\ Num.toFixed6 0x1.fffffffffffffp1023 = "1.7976931348623157e+308"
  /\ Num.toFixed6 123456789012345678901234 = "1.2345678901234569e+23"
  /\ Num.toFixed6 0x1p100 = "1.2676506002282294e+30"
  /\ Num.toFixed6 0x1.4542ba12a337ep+71 = "3.000000000000001e+21"
  /\ Num.toFixed6 999999999999999900000 = "999999999999999868928.000000".
Proof. vm_compute. repeat split. Qed.

Section Binary64.
Local Open Scope Z_scope.


(** * Binary64 facts read off the specification of the primitive floats *)

Lemma digits2_bounds (m : positive) :
  2 ^ (Z.pos (digits2_pos m) - 1) <= Z.pos m < 2 ^ Z.pos (digits2_pos m).
Proof.
  induction m as [m IH | m IH |]; cbn [digits2_pos].
  - rewrite Pos2Z.inj_succ, Z.pow_succ_r by lia.
    replace (Z.succ (Z.pos (digits2_pos m)) - 1) with (Z.succ (Z.pos (digits2_pos m) - 1)) by lia.
    rewrite Z.pow_succ_r by lia. lia.
  - rewrite Pos2Z.inj_succ, Z.pow_succ_r by lia.
    replace (Z.succ (Z.pos (digits2_pos m)) - 1) with (Z.succ (Z.pos (digits2_pos m) - 1)) by lia.
    rewrite Z.pow_succ_r by lia. lia.
  - simpl. lia.
Qed.

Lemma bounded_shape (m : positive) (e : Z) :
  bounded prec emax m e = true ->
  Z.pos (digits2_pos m) <= 53 ∧ -1074 <= e <= 971
  ∧ (-1074 < e -> Z.pos (digits2_pos m) = 53).
Proof.
  unfold bounded, canonical_mantissa, fexp, SpecFloat.emin, prec, emax.
  intros [H1%Z.eqb_eq H2%Z.leb_le]%andb_true_iff. lia.
Qed.

Lemma shr_1_half (r : shr_record) :
  0 <= shr_m r -> shr_m (shr_1 r) = shr_m r / 2.
Proof.
  destruct r as [[| [p | p |] | p] ? ?]; cbn [shr_m shr_1]; intros H; try lia.
  - reflexivity.
  - rewrite (Pos2Z.inj_xI p). apply Z.div_unique with 1; lia.
  - rewrite (Pos2Z.inj_xO p). apply Z.div_unique with 0; lia.
  - reflexivity.
Qed.

Lemma iter_shr_1 (p : positive) (r : shr_record) :
  0 <= shr_m r -> shr_m (SpecFloat.iter_pos shr_1 p r) = shr_m r / 2 ^ Z.pos p.
Proof.
  revert r. induction p as [p IH | p IH |]; intros r Hr; cbn [SpecFloat.iter_pos].
  - assert (H1 : 0 <= shr_m (shr_1 r)) by (rewrite shr_1_half by done; apply Z.div_pos; lia).
    assert (H2 : 0 <= shr_m (SpecFloat.iter_pos shr_1 p (shr_1 r)))
      by (rewrite IH by done; apply Z.div_pos; lia).
    rewrite IH, IH, shr_1_half by done.
    rewrite !Z.div_div by lia. f_equal.
    rewrite (Pos2Z.inj_xI p), Z.pow_add_r, Z.pow_twice_r by lia. lia.
  - assert (H2 : 0 <= shr_m (SpecFloat.iter_pos shr_1 p r))
      by (rewrite IH by done; apply Z.div_pos; lia).
    rewrite IH, IH by done. rewrite Z.div_div by lia. f_equal.
    rewrite (Pos2Z.inj_xO p), Z.pow_twice_r. lia.
  - rewrite shr_1_half by done. reflexivity.
Qed.

Lemma shr_record_of_loc_m (m : Z) (l : location) : shr_m (shr_record_of_loc m l) = m.
Proof. by destruct l as [| []]. Qed.

(** Shifting a positive mantissa into its format never empties it. *)
Lemma shr_fexp_positive (m : positive) (e : Z) (l : location) :
  -1074 <= e ->
  0 < shr_m (shr_fexp prec emax (Z.pos m) e l).1 ∧ -1074 <= (shr_fexp prec emax (Z.pos m) e l).2.
Proof.
  intros He. unfold shr_fexp, shr. cbn [Zdigits2].
  pose proof (digits2_bounds m) as [Hlo _].
  set (d := Z.pos (digits2_pos m)) in *.
  destruct (fexp prec emax (d + e) - e) as [| p | p] eqn:En; cbn [fst snd];
    rewrite ?shr_record_of_loc_m; try lia.
  assert (Hp : Z.pos p = d - 53).
  { revert En. unfold fexp, SpecFloat.emin, prec, emax. lia. }
  split; [| lia].
  rewrite iter_shr_1 by (rewrite shr_record_of_loc_m; lia).
  rewrite shr_record_of_loc_m.
  apply Z.div_str_pos. split; [lia |].
  etransitivity; [| exact Hlo]. apply Z.pow_le_mono_r; lia.
Qed.

Lemma round_nearest_even_positive (m : Z) (l : location) :
  0 < m -> 0 < round_nearest_even m l.
Proof.
  intros Hm. destruct l as [| []]; cbn [round_nearest_even]; try lia.
  destruct (Z.even m); lia.
Qed.

(** A rounded positive mantissa is a number of the given sign, or the
    infinity of that sign: never a zero. *)
Lemma binary_round_aux_nonzero (sx : bool) (m : positive) (e : Z) :
  -1074 <= e -> signedNonzero sx (binary_round_aux prec emax sx (Z.pos m) e loc_Exact).
Proof.
  intros He. unfold binary_round_aux.
  pose proof (shr_fexp_positive m e loc_Exact He) as [H1 H1e].
  destruct (shr_fexp prec emax (Z.pos m) e loc_Exact) as [mrs1 e1]. cbn [fst snd] in *.
  pose proof (round_nearest_even_positive (shr_m mrs1) (loc_of_shr_record mrs1) H1) as H2.
  destruct (round_nearest_even (shr_m mrs1) (loc_of_shr_record mrs1)) as [| m2 | m2]; try lia.
  pose proof (shr_fexp_positive m2 e1 loc_Exact H1e) as [H3 _].
  destruct (shr_fexp prec emax (Z.pos m2) e1 loc_Exact) as [mrs2 e2]. cbn [fst snd] in *.
  destruct (shr_m mrs2); try lia.
  destruct (e2 <=? emax - prec); reflexivity.
Qed.

Lemma pos_iter_xO (m d : positive) : Z.pos (Pos.iter xO m d) = Z.pos m * 2 ^ Z.pos d.
Proof.
  induction d as [| d IH] using Pos.peano_ind.
  - simpl. lia.
  - rewrite Pos.iter_succ, Pos2Z.inj_xO, IH, Pos2Z.inj_succ, Z.pow_succ_r by lia. lia.
Qed.

Lemma shl_align_value (m : positive) (e e' : Z) :
  e' <= e -> Z.pos (shl_align m e e').1 = Z.pos m * 2 ^ (e - e') ∧ (shl_align m e e').2 = e'.
Proof.
  intros He. unfold shl_align.
  destruct (e' - e) as [| d | d] eqn:Ed; cbn [fst snd]; try lia.
  - replace (e - e') with 0 by lia. simpl. lia.
  - rewrite pos_iter_xO. replace (e - e') with (Z.pos d) by lia. lia.
Qed.

Lemma binary_round_nonzero (sx : bool) (m : positive) (e : Z) :
  -1074 <= e -> signedNonzero sx (binary_round prec emax sx m e).
Proof.
  intros He. unfold binary_round.
  destruct (shl_align m e (fexp prec emax (Z.pos (digits2_pos m) + e))) as [mz ez] eqn:Ea.
  apply binary_round_aux_nonzero.
  revert Ea. unfold shl_align.
  destruct (fexp prec emax (Z.pos (digits2_pos m) + e) - e) eqn:Ed; intros [= <- <-]; try lia.
  unfold fexp, SpecFloat.emin, prec, emax. lia.
Qed.


Lemma scaled_finite_bounds (m : positive) (e : Z) :
  bounded prec emax m e = true ->
  0 < Z.pos m * 2 ^ (e + 1074) < 2 ^ (e + 1127)
  ∧ (-1074 < e -> 2 ^ (e + 1126) <= Z.pos m * 2 ^ (e + 1074)).
Proof.
  intros (Hd & He & Hn)%bounded_shape.
  pose proof (digits2_bounds m) as [Hlo Hhi].
  assert (Hp : 0 < 2 ^ (e + 1074)) by (apply Z.pow_pos_nonneg; lia).
  assert (H53 : Z.pos m < 2 ^ 53).
  { eapply Z.lt_le_trans; [exact Hhi |]. apply Z.pow_le_mono_r; lia. }
  split; [split; [apply Z.mul_pos_pos; lia |] |].
  - replace (e + 1127) with (53 + (e + 1074)) by lia.
    rewrite (Z.pow_add_r 2 53 (e + 1074)) by lia.
    apply Z.mul_lt_mono_pos_r; lia.
  - intros Hnorm. rewrite (Hn Hnorm) in Hlo.
    replace (e + 1126) with (52 + (e + 1074)) by lia.
    rewrite (Z.pow_add_r 2 52 (e + 1074)) by lia.
    apply Z.mul_le_mono_nonneg_r; [lia |]. exact Hlo.
Qed.

Lemma scaled_lt_of_exponent (mx my : positive) (ex ey : Z) :
  bounded prec emax mx ex = true -> bounded prec emax my ey = true ->
  ex < ey -> Z.pos mx * 2 ^ (ex + 1074) < Z.pos my * 2 ^ (ey + 1074).
Proof.
  intros Hx Hy Hlt.
  pose proof (bounded_shape _ _ Hx) as (_ & Hex & _).
  destruct (scaled_finite_bounds _ _ Hx) as [[_ Hxup] _].
  destruct (scaled_finite_bounds _ _ Hy) as [_ Hylo].
  eapply Z.lt_le_trans; [exact Hxup |].
  etransitivity; [| apply Hylo; lia]. apply Z.pow_le_mono_r; lia.
Qed.

Lemma SFcompare_scaled (x y : spec_float) :
  valid_binary x = true -> valid_binary y = true -> positiveSF x -> positiveSF y ->
  SFcompare x y = Some (scaled x ?= scaled y).
Proof.
  destruct x as [| [] | | [] mx ex], y as [| [] | | [] my ey]; try done;
    cbn [SpecFloat.valid_binary positiveSF scaled SFcompare]; intros Hx Hy _ _.
  - f_equal. symmetry. apply Z.compare_gt_iff.
    destruct (scaled_finite_bounds _ _ Hy) as [[_ Hup] _].
    pose proof (bounded_shape _ _ Hy) as (_ & He & _).
    eapply Z.lt_le_trans; [exact Hup |]. apply Z.pow_le_mono_r; lia.
  - f_equal. symmetry. apply Z.compare_lt_iff.
    destruct (scaled_finite_bounds _ _ Hx) as [[_ Hup] _].
    pose proof (bounded_shape _ _ Hx) as (_ & He & _).
    eapply Z.lt_le_trans; [exact Hup |]. apply Z.pow_le_mono_r; lia.
  - f_equal. destruct (Z.compare_spec ex ey) as [-> | Hlt | Hgt].
    + rewrite <- Zmult_compare_compat_r
        by (apply Z.lt_gt, Z.pow_pos_nonneg; [lia | pose proof (bounded_shape _ _ Hy); lia]).
      reflexivity.
    + symmetry. apply Z.compare_lt_iff. by apply scaled_lt_of_exponent.
    + symmetry. apply Z.compare_gt_iff. by apply scaled_lt_of_exponent.
Qed.

Lemma SFltb_scaled (x y : spec_float) :
  valid_binary x = true -> valid_binary y = true -> positiveSF x -> positiveSF y ->
  SFltb x y = (scaled x <? scaled y).
Proof.
  intros. unfold SFltb, Z.ltb. rewrite SFcompare_scaled by done.
  by destruct (scaled x ?= scaled y).
Qed.

Lemma SFleb_scaled (x y : spec_float) :
  valid_binary x = true -> valid_binary y = true -> positiveSF x -> positiveSF y ->
  SFleb x y = (scaled x <=? scaled y).
Proof.
  intros. unfold SFleb, Z.leb. rewrite SFcompare_scaled by done.
  by destruct (scaled x ?= scaled y).
Qed.

Lemma zero_lt_signed (sx : bool) (r : spec_float) :
  signedNonzero sx r -> SFltb (S754_zero false) r = negb sx.
Proof. destruct r as [| [] | | [] ? ?], sx; cbn; done. Qed.

(** The sign of a difference of positive floats is the order of its terms:
    the subtraction never rounds a difference of distinct numbers to zero. *)
Lemma SFsub_positive_iff (x y : spec_float) :
  valid_binary x = true -> valid_binary y = true -> positiveSF x -> positiveSF y ->
  SFltb (S754_zero false) (SF64sub y x) = SFltb x y.
Proof.
  intros Hx Hy Px Py. rewrite (SFltb_scaled x y) by done.
  destruct x as [| [] | | [] mx ex], y as [| [] | | [] my ey]; try done;
    cbn [SpecFloat.valid_binary] in Hx, Hy.
  - unfold SF64sub. cbn [SFsub scaled negb SFltb SFcompare].
    symmetry. apply Z.ltb_ge.
    destruct (scaled_finite_bounds _ _ Hy) as [[_ Hup] _].
    pose proof (bounded_shape _ _ Hy) as (_ & He & _).
    etransitivity; [apply Z.lt_le_incl, Hup |]. apply Z.pow_le_mono_r; lia.
  - unfold SF64sub. cbn [SFsub scaled SFltb SFcompare].
    symmetry. apply Z.ltb_lt.
    destruct (scaled_finite_bounds _ _ Hx) as [[_ Hup] _].
    pose proof (bounded_shape _ _ Hx) as (_ & He & _).
    eapply Z.lt_le_trans; [exact Hup |]. apply Z.pow_le_mono_r; lia.
  - unfold SF64sub. cbn [SFsub scaled cond_Zopp].
    pose proof (bounded_shape _ _ Hx) as (_ & Hex & _).
    pose proof (bounded_shape _ _ Hy) as (_ & Hey & _).
    set (ez := Z.min ey ex).
    destruct (shl_align_value my ey ez ltac:(lia)) as [-> _].
    destruct (shl_align_value mx ex ez ltac:(lia)) as [-> _].
    assert (Hscale : (Z.pos my * 2 ^ (ey - ez) - Z.pos mx * 2 ^ (ex - ez)) * 2 ^ (ez + 1074)
                     = Z.pos my * 2 ^ (ey + 1074) - Z.pos mx * 2 ^ (ex + 1074)).
    { rewrite Z.mul_sub_distr_r, <- !Z.mul_assoc, <- !Z.pow_add_r by lia.
      by replace (ey - ez + (ez + 1074)) with (ey + 1074) by lia;
        replace (ex - ez + (ez + 1074)) with (ex + 1074) by lia. }
    assert (Hpow : 0 < 2 ^ (ez + 1074)) by (apply Z.pow_pos_nonneg; lia).
    destruct (Z.pos my * 2 ^ (ey - ez) - Z.pos mx * 2 ^ (ex - ez)) as [| d | d] eqn:Ed;
      cbn [binary_normalize].
    + cbn. symmetry. apply Z.ltb_ge. lia.
    + rewrite (zero_lt_signed false) by (apply binary_round_nonzero; lia).
      symmetry. apply Z.ltb_lt. nia.
    + rewrite (zero_lt_signed true) by (apply binary_round_nonzero; lia).
      symmetry. apply Z.ltb_ge. nia.
Qed.

End Binary64.

(** * Lists: first and last elements *)

Lemma front_app (a b : list coord) : a ≠ [] -> front (a ++ b) = front a.
Proof. destruct a; [done | reflexivity]. Qed.

Lemma back_snoc (a : list coord) (c : coord) : back (a ++ [c]) = c.
Proof. apply last_last. Qed.

Lemma back_app (a b : list coord) : b ≠ [] -> back (a ++ b) = back b.
Proof.
  intros Hb. destruct (exists_last Hb) as (b' & c & ->).
  unfold back. by rewrite app_assoc, !last_last.
Qed.

Lemma nonempty_of_length (a : list coord) n : n < length a -> a ≠ [].
Proof. destruct a; simpl; [lia | done]. Qed.

(** * The loop body *)

Section LoopBody.
Variable segments : list (list coord).
Variable startIndex endIndex : endpointIndex.

Abbreviation step := (loopBody segments startIndex endIndex).
Abbreviation run := (extend segments startIndex endIndex).
Abbreviation visitAt := (visit segments startIndex endIndex).
Abbreviation next := (continuation segments startIndex endIndex).

Lemma loopBody_closed consumed ring :
  keyClosed ring -> 3 < length ring -> step consumed ring = Break (Some ring).
Proof.
  intros Hk Hl. unfold step.
  rewrite (bool_decide_eq_true_2 _ Hk), (bool_decide_eq_true_2 _ Hl). reflexivity.
Qed.

Lemma loopBody_open consumed ring :
  ¬ (keyClosed ring ∧ 3 < length ring) ->
  step consumed ring =
    match next consumed (coordKey (back ring)) with
    | Some (candIdx, candSeg) => Continue candIdx (ring ++ tail candSeg)
    | None =>
        if bool_decide (10 < length ring)
        then Break (Some (ring ++ [front ring]))
        else Break None
    end.
Proof.
  intros Hn. unfold step.
  destruct (bool_decide _ && bool_decide _) eqn:E; [| reflexivity].
  apply andb_true_iff in E as [E1%bool_decide_eq_true E2%bool_decide_eq_true].
  exfalso. apply Hn. split; assumption.
Qed.

Lemma loopBody_pushed consumed ring r :
  step consumed ring = Break (Some r) ->
  keyClosed r ∧ 4 ≤ length r
  ∧ (r = ring ∨ (r = ring ++ [front ring] ∧ 10 < length ring)).
Proof.
  unfold step.
  destruct (bool_decide _ && bool_decide _) eqn:E.
  - apply andb_true_iff in E as [E1%bool_decide_eq_true E2%bool_decide_eq_true].
    intros [= <-]. split; [assumption | split; [lia | by left]].
  - destruct (next _ _) as [[c s]|]; [discriminate |].
    clear E. case_bool_decide as Hl; [| discriminate].
    intros [= <-]. split; [| split].
    + unfold keyClosed. rewrite back_snoc, front_app; [done |].
      by apply (nonempty_of_length _ 10).
    + rewrite length_app. simpl. lia.
    + right. done.
Qed.

Lemma extend_pushed budget consumed ring consumed' r :
  run budget consumed ring = (consumed', Some r) -> keyClosed r ∧ 4 ≤ length r.
Proof.
  revert consumed ring. induction budget as [| budget IH]; intros consumed ring; simpl.
  - discriminate.
  - destruct (step consumed ring) as [c ring' | pushed] eqn:E.
    + apply IH.
    + intros [= <- ->]. by apply loopBody_pushed in E as (? & ? & _).
Qed.

Lemma visit_rings b i r :
  r ∈ rings (visitAt b i) ->
  r ∈ rings b ∨ (keyClosed r ∧ (4 ≤ length r ∨ (segments !! i = Some r ∧ 2 ≤ length r))).
Proof.
  unfold visitAt. case_bool_decide; [by left |].
  case_bool_decide as Hlen; [by left |].
  case_bool_decide as Hk.
  - simpl. rewrite elem_of_app, list_elem_of_singleton. intros [? | ->]; [by left |].
    right. split; [exact Hk |]. right. split; [| lia].
    unfold segmentAt in *. destruct (segments !! i); [done | simpl in Hlen; lia].
  - destruct (run _ _ _) as [consumed pushed] eqn:E. simpl.
    rewrite elem_of_app. intros [? | Hr]; [by left |].
    destruct pushed as [r' |]; simpl in Hr; [| by apply elem_of_nil in Hr].
    apply list_elem_of_singleton in Hr as ->.
    apply extend_pushed in E as [? ?]. right. split; [done | by left].
Qed.

Lemma foldl_visit_rings indices b r :
  r ∈ rings (foldl visitAt b indices) ->
  r ∈ rings b ∨ (keyClosed r ∧ (4 ≤ length r ∨ (r ∈ segments ∧ 2 ≤ length r))).
Proof.
  revert b. induction indices as [| i indices IH]; intros b; simpl; [by left |].
  intros [Hr | Hr]%IH; [| by right].
  apply visit_rings in Hr as [? | (? & [? | [? ?]])]; [by left | right; split; [done | by left] |].
  right. split; [done |]. right. split; [| done]. by eapply list_elem_of_lookup_2.
Qed.

End LoopBody.

Section Search.
Variable segments : list (list coord).
Variable startIndex endIndex : endpointIndex.

Abbreviation step := (loopBody segments startIndex endIndex).
Abbreviation run := (extend segments startIndex endIndex).
Abbreviation visitAt := (visit segments startIndex endIndex).
Abbreviation next := (continuation segments startIndex endIndex).
Abbreviation loops := (passes segments startIndex endIndex).

Lemma firstUnused_first consumed pre c post :
  (∀ x, x ∈ pre -> x ∈ consumed) -> c ∉ consumed ->
  firstUnused consumed (pre ++ c :: post) = Some c.
Proof.
  intros Hpre Hc. induction pre as [| x pre IH]; simpl.
  - by rewrite bool_decide_eq_true_2.
  - rewrite bool_decide_eq_false_2.
    + apply IH. intros y Hy. apply Hpre. by right.
    + intros Hx. apply Hx, Hpre. by left.
Qed.

Lemma firstUnused_none consumed candidates :
  (∀ x, x ∈ candidates -> x ∈ consumed) -> firstUnused consumed candidates = None.
Proof.
  intros Hall. induction candidates as [| x l IH]; simpl; [done |].
  rewrite bool_decide_eq_false_2.
  - apply IH. intros y Hy. apply Hall. by right.
  - intros Hx. apply Hx, Hall. by left.
Qed.

Lemma firstUnused_Some consumed candidates c :
  firstUnused consumed candidates = Some c -> c ∈ candidates ∧ c ∉ consumed.
Proof.
  intros [Hin Hc%bool_decide_eq_true]%find_some. by rewrite list_elem_of_In.
Qed.

Lemma continuation_Some consumed endKey c candSeg :
  next consumed endKey = Some (c, candSeg) ->
  (c ∉ consumed)
  ∧ (c ∈ candidatesAt startIndex endKey ∨ c ∈ candidatesAt endIndex endKey)
  ∧ (candSeg = segmentAt segments c ∨ candSeg = rev (segmentAt segments c)).
Proof.
  unfold next.
  destruct (firstUnused consumed (candidatesAt startIndex endKey)) as [c1 |] eqn:E1.
  - intros [= <- <-]. apply firstUnused_Some in E1 as [? ?]. auto.
  - destruct (firstUnused consumed (candidatesAt endIndex endKey)) as [c2 |] eqn:E2; [| done].
    intros [= <- <-]. apply firstUnused_Some in E2 as [? ?]. auto.
Qed.

Lemma passes_extend n consumed ring consumed' ring' :
  loops n consumed ring = Some (consumed', ring') ->
  run n consumed ring = (consumed', None).
Proof.
  revert consumed ring. induction n as [| n IH]; intros consumed ring; simpl.
  - by intros [= <- <-].
  - destruct (step consumed ring) as [c r | pushed]; [apply IH | discriminate].
Qed.

Lemma passes_length n consumed ring consumed' ring' :
  loops n consumed ring = Some (consumed', ring') -> length ring ≤ length ring'.
Proof.
  revert consumed ring. induction n as [| n IH]; intros consumed ring; simpl.
  - intros [= <- <-]. lia.
  - unfold loopBody.
    destruct (bool_decide _ && bool_decide _); [discriminate |].
    destruct (continuation _ _ _ _ _) as [[c s] |].
    + intros H%IH. rewrite length_app in H. lia.
    + case_bool_decide; discriminate.
Qed.

End Search.

(** C2 (as amended).  A pass of the extension loop checks for closure
    first: a ring whose end keys agree and that has more than three points
    is pushed as it stands, whatever continuations are on offer.  Only
    otherwise is the starts index searched for the first unconsumed
    candidate, then the ends index for one to take reversed; when neither
    has one the ring is closed by force if it has more than ten points and
    dropped if not. *)
Theorem closure_checked_before_search
    (segments : list (list coord)) (startIndex endIndex : endpointIndex)
    (consumed : gset nat) (ring : list coord) :
  let endKey := coordKey (back ring) in
  let body := loopBody segments startIndex endIndex consumed ring in
  let closed := keyClosed ring ∧ 3 < length ring in
  (closed -> body = Break (Some ring))
  ∧ (∀ pre c post,
       ¬ closed ->
       candidatesAt startIndex endKey = pre ++ c :: post ->
       (∀ x, x ∈ pre -> x ∈ consumed) -> c ∉ consumed ->
       body = Continue c (ring ++ tail (segmentAt segments c)))
  ∧ (∀ pre c post,
       ¬ closed ->
       (∀ x, x ∈ candidatesAt startIndex endKey -> x ∈ consumed) ->
       candidatesAt endIndex endKey = pre ++ c :: post ->
       (∀ x, x ∈ pre -> x ∈ consumed) -> c ∉ consumed ->
       body = Continue c (ring ++ tail (rev (segmentAt segments c))))
  ∧ (¬ closed ->
     (∀ x, x ∈ candidatesAt startIndex endKey -> x ∈ consumed) ->
     (∀ x, x ∈ candidatesAt endIndex endKey -> x ∈ consumed) ->
     body = if bool_decide (10 < length ring)
            then Break (Some (ring ++ [front ring])) else Break None).
Proof.
  intros endKey body closed. subst body closed. split; [| split; [| split]].
  - intros [? ?]. by apply loopBody_closed.
  - intros pre c post Hn Hc Hpre Hfree. rewrite loopBody_open by done.
    unfold continuation. fold endKey. rewrite Hc.
    by rewrite firstUnused_first.
  - intros pre c post Hn Hstart Hc Hpre Hfree. rewrite loopBody_open by done.
    unfold continuation. fold endKey.
    rewrite (firstUnused_none _ _ Hstart), Hc. by rewrite firstUnused_first.
  - intros Hn Hstart Hend. rewrite loopBody_open by done.
    unfold continuation. fold endKey.
    by rewrite (firstUnused_none _ _ Hstart), (firstUnused_none _ _ Hend).
Qed.

(** C3 (as amended).  A ring in progress that takes all 10000 passes of
    the loop without leaving it is abandoned as it is: nothing is pushed for
    it, however many points it has, and the segments it consumed stay
    consumed. *)
Theorem overrun_pushes_nothing
    (segments : list (list coord)) (startIndex endIndex : endpointIndex)
    (consumed consumed' : gset nat) (ring ring' : list coord) :
  passes segments startIndex endIndex maxIterations consumed ring = Some (consumed', ring') ->
  extend segments startIndex endIndex maxIterations consumed ring = (consumed', None).
Proof. apply passes_extend. Qed.

(** * What the endpoint indexes hold *)

Lemma candidatesAt_pushAt index key' i key :
  candidatesAt (pushAt key' i index) key
  = candidatesAt index key ++ (if bool_decide (key' = key) then [i] else []).
Proof.
  unfold candidatesAt, pushAt. case_bool_decide as Hk.
  - subst. by rewrite lookup_insert_eq.
  - rewrite lookup_insert_ne by done. by rewrite app_nil_r.
Qed.

Lemma candidatesAt_indexFrom segs i ix key :
  candidatesAt (indexFrom i segs ix).1 key = candidatesAt ix.1 key ++ keyed front key i segs
  ∧ candidatesAt (indexFrom i segs ix).2 key = candidatesAt ix.2 key ++ keyed back key i segs.
Proof.
  revert i ix. induction segs as [| seg segs IH]; intros i ix; simpl.
  - by rewrite !app_nil_r.
  - destruct (IH (S i) (addEndpoints ix i seg)) as [-> ->]. unfold addEndpoints.
    case_bool_decide as Hshort.
    + rewrite !bool_decide_eq_false_2 by lia. done.
    + simpl. rewrite !candidatesAt_pushAt, <- !app_assoc.
      split; do 2 f_equal; repeat case_bool_decide; naive_solver lia.
Qed.

Lemma candidatesAt_start segments key :
  candidatesAt (buildIndexes segments).1 key = keyed front key 0 segments.
Proof. unfold buildIndexes. by rewrite (proj1 (candidatesAt_indexFrom _ _ _ _)). Qed.

Lemma candidatesAt_end segments key :
  candidatesAt (buildIndexes segments).2 key = keyed back key 0 segments.
Proof. unfold buildIndexes. by rewrite (proj2 (candidatesAt_indexFrom _ _ _ _)). Qed.

Lemma keyed_spec endpoint key segs i c :
  c ∈ keyed endpoint key i segs ↔
  ∃ seg, segs !! (c - i) = Some seg ∧ i ≤ c ∧ 2 ≤ length seg ∧ coordKey (endpoint seg) = key.
Proof.
  revert i. induction segs as [| seg segs IH]; intros i; simpl.
  - split; [by intros ?%elem_of_nil | by intros (? & ? & _)].
  - rewrite elem_of_app, IH. split.
    + intros [Hc | (seg' & Hl & Hi & Hrest)].
      * case_bool_decide as Hp; [| by apply elem_of_nil in Hc].
        apply list_elem_of_singleton in Hc as ->. exists seg.
        rewrite Nat.sub_diag. naive_solver.
      * exists seg'. replace (c - i) with (S (c - S i)) by lia. naive_solver lia.
    + intros (seg' & Hl & Hi & Hlen & Hk).
      destruct (decide (c = i)) as [-> | Hne].
      * rewrite Nat.sub_diag in Hl. injection Hl as <-. left.
        rewrite bool_decide_eq_true_2 by done. by apply list_elem_of_singleton.
      * right. exists seg'. replace (c - i) with (S (c - S i)) in Hl by lia.
        naive_solver lia.
Qed.

Lemma keyed_replicate_hit endpoint key i n seg :
  2 ≤ length seg -> coordKey (endpoint seg) = key ->
  keyed endpoint key i (replicate n seg) = seq i n.
Proof.
  intros Hl Hk. revert i. induction n as [| n IH]; intros i; simpl; [done |].
  by rewrite bool_decide_eq_true_2, IH.
Qed.

Lemma keyed_replicate_miss endpoint key i n seg :
  coordKey (endpoint seg) ≠ key -> keyed endpoint key i (replicate n seg) = [].
Proof.
  intros Hk. revert i. induction n as [| n IH]; intros i; simpl; [done |].
  rewrite bool_decide_eq_false_2, IH; [done | naive_solver].
Qed.

(** * The swinging input overruns the cap *)

Section Swinging.
Variable copies : nat.

Abbreviation origin := ((0, 0)%float : coord).
Abbreviation east := ((1, 0)%float : coord).
Abbreviation far := ((2, 0)%float : coord).

Abbreviation S0 := (swinging copies).
Abbreviation starts := (buildIndexes (swinging copies)).1.
Abbreviation ends := (buildIndexes (swinging copies)).2.

Lemma keys_apart :
  coordKey origin ≠ coordKey east ∧ coordKey origin ≠ coordKey far
  ∧ coordKey east ≠ coordKey far.
Proof. vm_compute. repeat split; discriminate. Qed.

Lemma swinging_starts_east : candidatesAt starts (coordKey east) = seq 1 copies.
Proof.
  rewrite candidatesAt_start. unfold swinging. simpl.
  rewrite bool_decide_eq_false_2 by (intros [_ H]; by apply keys_apart in H).
  by apply keyed_replicate_hit.
Qed.

Lemma swinging_starts_far : candidatesAt starts (coordKey far) = [].
Proof.
  rewrite candidatesAt_start. unfold swinging. simpl.
  rewrite bool_decide_eq_false_2 by (intros [_ H]; by apply keys_apart in H).
  apply keyed_replicate_miss. intros H. by apply keys_apart in H.
Qed.

Lemma swinging_ends_far : candidatesAt ends (coordKey far) = seq 1 copies.
Proof.
  rewrite candidatesAt_end. unfold swinging. simpl.
  rewrite bool_decide_eq_false_2 by (intros [_ H]; by apply keys_apart in H).
  by apply keyed_replicate_hit.
Qed.

Lemma swinging_segmentAt c :
  1 ≤ c ≤ copies -> segmentAt (swinging copies) c = [east; far].
Proof.
  intros Hc. unfold segmentAt, swinging. destruct c as [| c]; [lia |]. simpl.
  rewrite lookup_replicate_2 by lia. done.
Qed.

Lemma firstUnused_seq consumed j :
  (∀ x, x ∈ consumed ↔ x ≤ j) -> j < copies ->
  firstUnused consumed (seq 1 copies) = Some (S j).
Proof.
  intros Hc Hj.
  replace copies with (j + S (copies - S j)) by lia.
  rewrite seq_app. simpl. apply firstUnused_first.
  - intros x Hx%elem_of_seq. apply Hc. lia.
  - rewrite Hc. lia.
Qed.

Lemma swinging_pass j consumed ring :
  j < copies -> swung j consumed ring ->
  ∃ ring', loopBody S0 starts ends consumed ring = Continue (S j) ring'
           ∧ swung (S j) ({[S j]} ∪ consumed) ring'.
Proof.
  intros Hj (Hc & Hf & Hb & Hl).
  assert (Hopen : ¬ (keyClosed ring ∧ 3 < length ring)).
  { intros [Hk _]. unfold keyClosed in Hk. rewrite Hf, Hb in Hk.
    destruct (Nat.even j); by apply keys_apart in Hk. }
  rewrite loopBody_open by done. unfold continuation. rewrite Hb.
  assert (Hset : ∀ x, x ∈ ({[S j]} ∪ consumed : gset nat) ↔ x ≤ S j).
  { intros x. rewrite elem_of_union, elem_of_singleton, Hc. lia. }
  assert (Hne : ring ≠ []) by (apply (nonempty_of_length _ 0); lia).
  destruct (Nat.even j) eqn:Ej.
  - rewrite swinging_starts_east, (firstUnused_seq _ j) by done.
    rewrite swinging_segmentAt by lia. simpl. eexists. split; [done |].
    split; [done |]. split; [by rewrite front_app |].
    split; [| rewrite length_app; simpl; lia].
    rewrite back_snoc, Nat.even_succ, <- Nat.negb_even, Ej. done.
  - rewrite swinging_starts_far. simpl.
    rewrite swinging_ends_far, (firstUnused_seq _ j) by done.
    rewrite swinging_segmentAt by lia. simpl. eexists. split; [done |].
    split; [done |]. split; [by rewrite front_app |].
    split; [| rewrite length_app; simpl; lia].
    rewrite back_snoc, Nat.even_succ, <- Nat.negb_even, Ej. done.
Qed.

Lemma swinging_passes n j consumed ring :
  j + n ≤ copies -> swung j consumed ring ->
  ∃ consumed' ring',
    passes S0 starts ends n consumed ring = Some (consumed', ring')
    ∧ swung (j + n) consumed' ring'.
Proof.
  revert j consumed ring. induction n as [| n IH]; intros j consumed ring Hn Hs.
  - exists consumed, ring. by rewrite Nat.add_0_r.
  - destruct (swinging_pass j consumed ring) as (ring1 & Hbody & Hs1); [lia | done |].
    destruct (IH (S j) ({[S j]} ∪ consumed) ring1) as (consumed' & ring' & Hp & Hs'); [lia | done |].
    exists consumed', ring'. cbn [passes]. rewrite Hbody.
    split; [done |]. by replace (j + S n) with (S j + n) by lia.
Qed.

Lemma swinging_seed : swung 0 ({[0]} ∪ ∅) [origin; east].
Proof.
  split; [| done]. intros x. rewrite elem_of_union, elem_of_singleton.
  split; [intros [-> | []%not_elem_of_empty]; lia | intros; left; lia].
Qed.

End Swinging.

Lemma foldl_visit_skip segments startIndex endIndex indices b :
  (∀ i, i ∈ indices -> i ∈ used b) ->
  foldl (visit segments startIndex endIndex) b indices = b.
Proof.
  induction indices as [| i indices IH]; intros Hall; simpl; [done |].
  unfold visit at 2. rewrite bool_decide_eq_true_2 by (apply Hall; by left).
  apply IH. intros j Hj. apply Hall. by right.
Qed.

Lemma swinging_overrun copies budget :
  budget = copies ->
  ∃ consumed ring,
    passes (swinging copies) (buildIndexes (swinging copies)).1
      (buildIndexes (swinging copies)).2 budget ({[0]} ∪ ∅)
      [(0, 0); (1, 0)]%float = Some (consumed, ring)
    ∧ length ring = copies + 2
    ∧ (∀ x, x ∈ consumed ↔ x ≤ copies).
Proof.
  intros ->.
  destruct (swinging_passes copies copies 0 ({[0]} ∪ ∅) [(0, 0); (1, 0)]%float)
    as (consumed & ring & Hp & Hall & _ & _ & Hlen); [lia | apply swinging_seed |].
  exists consumed, ring. rewrite Nat.add_0_l in Hall, Hlen. done.
Qed.

Lemma swinging_merge copies :
  copies = maxIterations -> mergeSegments (swinging copies) = [].
Proof.
  intros Hc.
  destruct (swinging_overrun copies maxIterations (eq_sym Hc))
    as (consumed & ring & Hp & _ & Hall).
  apply passes_extend in Hp.
  unfold mergeSegments, build.
  replace (length (swinging copies)) with (S copies)
    by (unfold swinging; cbn [length]; by rewrite length_replicate).
  cbn [seq foldl]. unfold visit at 2.
  rewrite bool_decide_eq_false_2 by apply not_elem_of_empty.
  change (segmentAt (swinging copies) 0) with [(0, 0); (1, 0)]%float.
  rewrite bool_decide_eq_false_2 by (simpl; lia).
  rewrite bool_decide_eq_false_2 by (vm_compute; discriminate).
  cbn [used]. rewrite Hp. rewrite foldl_visit_skip; [done |].
  intros i Hi%elem_of_seq. cbn [used]. apply Hall. lia.
Qed.

(** * The claims about the ring builder *)

Lemma forward_stitch :
  mergeSegments [[(0, 0); (1, 0); (1, 1)]; [(1, 1); (0, 1); (0, 0)]]%float = [unitSquare].
Proof. vm_compute. reflexivity. Qed.

Lemma reverse_stitch :
  mergeSegments [[(0, 0); (1, 0); (1, 1)]; [(0, 0); (0, 1); (1, 1)]]%float = [unitSquare].
Proof. vm_compute. reflexivity. Qed.

Lemma float_neq (x y : float) : Prim2SF x ≠ Prim2SF y -> x ≠ y.
Proof. intros H ->. by apply H. Qed.

(** C1 (as amended).  The end points of every ring [mergeSegments] returns
    have the same key, and the ring has at least four points unless it is
    one of the input segments, pushed as it came. *)
Theorem produced_ring_closed_by_key (segments : list (list coord)) (r : list coord) :
  r ∈ mergeSegments segments ->
  coordKey (front r) = coordKey (back r) ∧ (4 ≤ length r ∨ r ∈ segments).
Proof.
  unfold mergeSegments, build. intros [Hr | [Hk Hl]]%foldl_visit_rings.
  - by apply elem_of_nil in Hr.
  - split; [exact Hk |]. destruct Hl as [? | [? _]]; auto.
Qed.

Lemma produced_ring_closed_by_key_witness :
  coordKey (front unitSquare) = coordKey (back unitSquare)
  ∧ (4 ≤ length unitSquare
     ∨ unitSquare ∈ [[(0, 0); (1, 0); (1, 1)]; [(1, 1); (0, 1); (0, 0)]]%float).
Proof.
  apply (produced_ring_closed_by_key
           [[(0, 0); (1, 0); (1, 1)]; [(1, 1); (0, 1); (0, 0)]]%float unitSquare).
  rewrite forward_stitch. apply list_elem_of_here.
Defined.

(** C1 as stated fails: a three-point way whose last point is within a
    millionth of its first is pushed as a ring of three points whose first
    and last coordinates differ; and a ring closed by the loop can end on a
    coordinate that is not its first. *)
Lemma ring_invariant_counterexample :
  let sliver := [(0, 0); (1, 0); (0x1p-30, 0)]%float in
  let nearly := [(0, 0); (1, 0); (1, 1); (0, 1); (0x1p-30, 0)]%float in
  (mergeSegments [sliver] = [sliver]
   ∧ length sliver = 3 ∧ front sliver ≠ back sliver)
  ∧ (mergeSegments [[(0, 0); (1, 0); (1, 1)]; [(1, 1); (0, 1); (0x1p-30, 0)]]%float = [nearly]
     ∧ front nearly ≠ back nearly).
Proof.
  cbv zeta. split; (split; [vm_compute; reflexivity |]).
  - split; [reflexivity |]. intros H. apply (f_equal fst) in H. revert H.
    apply float_neq. vm_compute. discriminate.
  - intros H. apply (f_equal fst) in H. revert H.
    apply float_neq. vm_compute. discriminate.
Qed.

(** C2 as stated fails: with the square already closed and a way leaving
    from its corner still unconsumed, the pass pushes the square and leaves
    that way alone. *)
Lemma closure_before_search_counterexample :
  let segments :=
    [[(0, 0); (1, 0); (1, 1)]; [(1, 1); (0, 1); (0, 0)]; [(0, 0); (5, 5)]]%float in
  let ix := buildIndexes segments in
  continuation segments ix.1 ix.2 {[0; 1]} (coordKey (back unitSquare))
    = Some (2, [(0, 0); (5, 5)]%float)
  ∧ loopBody segments ix.1 ix.2 {[0; 1]} unitSquare = Break (Some unitSquare)
  ∧ mergeSegments segments = [unitSquare].
Proof. cbv zeta. split; [| split]; vm_compute; reflexivity. Qed.

(** C3 as stated fails: on 10000 copies of a way behind a seed the ring in
    progress reaches 10002 points while using up its passes, and it is then
    dropped, not closed by force. *)
Lemma overrun_counterexample :
  let segments := swinging maxIterations in
  let ix := buildIndexes segments in
  ∃ consumed ring,
    passes segments ix.1 ix.2 maxIterations ({[0]} ∪ ∅) [(0, 0); (1, 0)]%float
      = Some (consumed, ring)
    ∧ 10 < length ring
    ∧ (extend segments ix.1 ix.2 maxIterations ({[0]} ∪ ∅) [(0, 0); (1, 0)]%float).2
      ≠ Some (ring ++ [front ring])
    ∧ mergeSegments segments = [].
Proof.
  cbv zeta.
  destruct (swinging_overrun maxIterations maxIterations eq_refl)
    as (consumed & ring & Hp & Hl & _).
  exists consumed, ring. split; [exact Hp |].
  split; [rewrite Hl; apply Nat.ltb_lt; vm_compute; reflexivity |].
  split; [by rewrite (passes_extend _ _ _ _ _ _ _ _ Hp) |].
  by apply swinging_merge.
Qed.

Lemma overrun_pushes_nothing_witness :
  ∃ consumed,
    extend (swinging maxIterations) (buildIndexes (swinging maxIterations)).1
      (buildIndexes (swinging maxIterations)).2 maxIterations ({[0]} ∪ ∅)
      [(0, 0); (1, 0)]%float = (consumed, None).
Proof.
  destruct (swinging_overrun maxIterations maxIterations eq_refl)
    as (consumed & ring & Hp & _).
  exists consumed.
  exact (overrun_pushes_nothing _ _ _ _ _ _ _ Hp).
Defined.

(** C5.  Forward stitching through the starts index and reverse stitching
    through the ends index both rebuild the closed unit square, as the one
    ring of the output. *)
Theorem unit_square_stitching :
  mergeSegments [[(0, 0); (1, 0); (1, 1)]; [(1, 1); (0, 1); (0, 0)]]%float = [unitSquare]
  ∧ mergeSegments [[(0, 0); (1, 0); (1, 1)]; [(0, 0); (0, 1); (1, 1)]]%float = [unitSquare].
Proof. split; [apply forward_stitch | apply reverse_stitch]. Qed.

(** * The shoelace area *)

Lemma shoelaceLoop_signedSum (pre rest : list coord) (acc : float) :
  shoelaceLoop (pre ++ rest) (length rest - 1) (length pre) acc = signedSum acc rest.
Proof.
  revert pre acc. induction rest as [| p rest IH]; intros pre acc; [reflexivity |].
  destruct rest as [| q rest]; [reflexivity |].
  replace (length (p :: q :: rest) - 1) with (S (length (q :: rest) - 1)) by (simpl; lia).
  cbn [shoelaceLoop signedSum].
  replace (nth (length pre) (pre ++ p :: q :: rest) (0, 0)%float) with p
    by (by rewrite app_nth2, Nat.sub_diag by lia).
  replace (nth (S (length pre)) (pre ++ p :: q :: rest) (0, 0)%float) with q
    by (rewrite app_nth2 by lia; by replace (S (length pre) - length pre) with 1 by lia).
  specialize (IH (pre ++ [p]) (acc + p.1 * q.2 - q.1 * p.2)%float).
  rewrite <- app_assoc, length_app, Nat.add_1_r in IH. exact IH.
Qed.

Lemma calculateRingArea_signedSum (ring : list coord) :
  calculateRingArea ring = abs (signedSum 0 ring / 2).
Proof. unfold calculateRingArea. by rewrite (shoelaceLoop_signedSum [] ring). Qed.

Lemma abs_not_negative (x : float) : (abs x <? 0)%float = false.
Proof.
  rewrite FloatAxioms.ltb_spec, FloatAxioms.abs_spec. change (Prim2SF 0) with (S754_zero false).
  by destruct (Prim2SF x) as [[] | [] | | [] ? ?].
Qed.

Lemma abs_number_nonnegative (x : float) :
  is_nan (abs x) = false -> (0 <=? abs x)%float = true.
Proof.
  unfold is_nan. rewrite FloatAxioms.leb_spec, FloatAxioms.eqb_spec, FloatAxioms.abs_spec.
  change (Prim2SF 0) with (S754_zero false).
  by destruct (Prim2SF x) as [[] | [] | | [] ? ?].
Qed.

(** * Insertion by a comparator that follows a weight *)

Section InsertBy.
Context {A : Type}.
Variable comparefn : A -> A -> float.
Variable weight : A -> Z.
Variable good : A -> Prop.
Hypothesis comparefn_weight :
  ∀ x y, good x -> good y -> (0 <? comparefn x y)%float = (weight x <? weight y)%Z.

Lemma insertBy_perm x l : insertBy comparefn x l ≡ₚ x :: l.
Proof.
  induction l as [| y l IH]; simpl; [done |].
  destruct (0 <? comparefn x y)%float; [| done].
  by rewrite IH, Permutation_swap.
Qed.

Lemma sortBy_perm l : sortBy comparefn l ≡ₚ l.
Proof.
  induction l as [| x l IH]; simpl; [done |].
  unfold sortBy in *. simpl. by rewrite insertBy_perm, IH.
Qed.

Lemma insertBy_sorted x l :
  good x -> Forall good l -> StronglySorted (heavierFirst weight) l ->
  StronglySorted (heavierFirst weight) (insertBy comparefn x l).
Proof.
  intros Hx Hl Hs. induction Hs as [| y l Hs IH Hy]; simpl.
  - repeat constructor.
  - apply Forall_cons in Hl as [Hgy Hl].
    rewrite comparefn_weight by done. destruct (Z.ltb_spec (weight x) (weight y)) as [Hlt | Hge].
    + constructor; [by apply IH |].
      rewrite insertBy_perm. constructor; [unfold heavierFirst; lia | done].
    + constructor; [by constructor |].
      constructor; [done |].
      eapply Forall_impl; [exact Hy |]. unfold heavierFirst. intros; lia.
Qed.

Lemma sortBy_sorted l :
  Forall good l -> StronglySorted (heavierFirst weight) (sortBy comparefn l).
Proof.
  induction l as [| x l IH]; intros Hl; [constructor |].
  apply Forall_cons in Hl as [Hx Hl]. unfold sortBy in *. simpl.
  apply insertBy_sorted; [done | | by apply IH].
  by rewrite (sortBy_perm l : foldr (insertBy comparefn) [] l ≡ₚ l).
Qed.
End InsertBy.

(** * Areas above the threshold *)

Lemma threshold_positive (a : float) :
  (0.0001 <? a)%float = true -> positiveSF (Prim2SF a).
Proof.
  rewrite FloatAxioms.ltb_spec.
  set (t := Prim2SF 0.0001). vm_compute in t. subst t.
  by destruct (Prim2SF a) as [[] | [] | | [] ? ?].
Qed.

Lemma positive_sub_sign (a b : float) :
  positiveSF (Prim2SF a) -> positiveSF (Prim2SF b) ->
  (0 <? b - a)%float = (scaled (Prim2SF a) <? scaled (Prim2SF b))%Z.
Proof.
  intros Ha Hb. rewrite FloatAxioms.ltb_spec, FloatAxioms.sub_spec.
  change (Prim2SF 0) with (S754_zero false).
  rewrite SFsub_positive_iff by (done || apply Prim2SF_valid).
  apply SFltb_scaled; done || apply Prim2SF_valid.
Qed.

Lemma positive_leb (a b : float) :
  positiveSF (Prim2SF a) -> positiveSF (Prim2SF b) ->
  (a <=? b)%float = (scaled (Prim2SF a) <=? scaled (Prim2SF b))%Z.
Proof.
  intros Ha Hb. rewrite FloatAxioms.leb_spec.
  apply SFleb_scaled; done || apply Prim2SF_valid.
Qed.

Lemma byAreaDescending_weight (x y : list coord) :
  significant x = true -> significant y = true ->
  (0 <? byAreaDescending x y)%float = (areaWeight x <? areaWeight y)%Z.
Proof.
  intros Hx%threshold_positive Hy%threshold_positive.
  by apply positive_sub_sign.
Qed.

Lemma significantRings_spec rings r :
  r ∈ significantRings rings ↔ r ∈ rings ∧ significant r = true.
Proof. unfold significantRings. by rewrite !list_elem_of_In, filter_In. Qed.

Lemma sorted_significant rings :
  StronglySorted (heavierFirst areaWeight)
    (sortBy byAreaDescending (significantRings rings))
  ∧ sortBy byAreaDescending (significantRings rings) ≡ₚ significantRings rings.
Proof.
  split; [| apply sortBy_perm].
  apply (sortBy_sorted _ _ (fun r => significant r = true)).
  - apply byAreaDescending_weight.
  - apply Forall_forall. by intros r [_ ?]%significantRings_spec.
Qed.

Lemma heavierFirst_leb (x y : list coord) :
  significant x = true -> significant y = true ->
  heavierFirst areaWeight x y ->
  (calculateRingArea y <=? calculateRingArea x)%float = true.
Proof.
  intros Hx%threshold_positive Hy%threshold_positive Hw.
  rewrite positive_leb by done. by apply Z.leb_le.
Qed.

(** C4.  The land masses kept are rings of the input whose area is above
    0.0001, in descending order of area, at most 50 of them and exactly 50
    when at least 50 rings pass the threshold; no ring left out is larger
    than one kept; and the output has one feature a kept ring, in the same
    order. *)
Theorem land_masses_filtered_ranked_truncated (rings : list (list coord)) :
  let kept := mainLandFeatures rings in
  (∀ r, r ∈ kept -> r ∈ rings ∧ (0.0001 <? calculateRingArea r)%float = true)
  ∧ (∀ i j ri rj, i < j -> kept !! i = Some ri -> kept !! j = Some rj ->
       (calculateRingArea rj <=? calculateRingArea ri)%float = true)
  ∧ length kept = min 50 (length (significantRings rings))
  ∧ (length (significantRings rings) = 100 -> length kept = 50)
  ∧ (∃ dropped, kept ++ dropped ≡ₚ significantRings rings
       ∧ ∀ r r', r ∈ kept -> r' ∈ dropped ->
           (calculateRingArea r' <=? calculateRingArea r)%float = true)
  ∧ length (imap landFeature kept) = length kept
  ∧ (∀ i r, kept !! i = Some r ->
       (fun f => GeoJson.coordinates (GeoJson.geometry f)) <$> imap landFeature kept !! i
       = Some [r]).
Proof.
  intros kept. subst kept. unfold mainLandFeatures.
  destruct (sorted_significant rings) as [Hs Hp].
  set (sorted := sortBy byAreaDescending (significantRings rings)) in *.
  assert (Hsig : ∀ r, r ∈ sorted -> r ∈ rings ∧ significant r = true).
  { intros r Hr. rewrite Hp in Hr. by apply significantRings_spec. }
  assert (Hkept : ∀ r, r ∈ take 50 sorted -> r ∈ sorted).
  { intros r Hr. by apply (subseteq_take 50 sorted). }
  split; [| split; [| split; [| split; [| split; [| split]]]]].
  - intros r Hr. by apply Hsig, Hkept.
  - intros i j ri rj Hij Hi Hj.
    apply lookup_take_Some in Hi as [Hi Hi50]. apply lookup_take_Some in Hj as [Hj Hj50].
    apply heavierFirst_leb.
    + eapply Hsig, list_elem_of_lookup_2, Hi.
    + eapply Hsig, list_elem_of_lookup_2, Hj.
    + rewrite <- (take_drop_middle sorted j rj Hj) in Hs, Hi.
      apply StronglySorted_app in Hs as (Hcross & _ & _).
      apply (Hcross ri rj).
      * rewrite lookup_app_l in Hi by (rewrite length_take; apply lookup_lt_Some in Hj; lia).
        by eapply list_elem_of_lookup_2.
      * by left.
  - by rewrite length_take, Hp.
  - intros H100. rewrite length_take, Hp, H100. reflexivity.
  - exists (drop 50 sorted). rewrite take_drop. split; [exact Hp |].
    intros r r' Hr Hr'.
    rewrite <- (take_drop 50 sorted) in Hs, Hsig.
    apply heavierFirst_leb.
    + apply Hsig, elem_of_app. by left.
    + apply Hsig, elem_of_app. by right.
    + apply StronglySorted_app in Hs as (Hcross & _ & _). by apply Hcross.
  - apply length_imap.
  - intros i r Hi. rewrite list_lookup_imap, Hi. reflexivity.
Qed.

(** * Decimal strings *)

Lemma avoids_app c s t : avoids c (s +:+ t) ↔ avoids c s ∧ avoids c t.
Proof. induction s as [| x s IH]; simpl; [tauto | rewrite IH; tauto]. Qed.

(** Two strings cut at a character that neither head contains agree part by
    part. *)
Lemma append_split c a a' t t' :
  avoids c a -> avoids c a' ->
  a +:+ String c t = a' +:+ String c t' -> a = a' ∧ t = t'.
Proof.
  revert a'. induction a as [| x a IH]; intros [| x' a']; simpl.
  - by intros _ _ [= ->].
  - intros _ [Hx _] [= -> _]. done.
  - intros [Hx _] _ [= -> _]. done.
  - intros [_ Ha] [_ Ha'] [= -> H]. destruct (IH a' Ha Ha' H) as [-> ->]. done.
Qed.

Lemma digitChar_isDigit d : (0 <= d < 10)%Z -> isDigit (Num.digitChar d).
Proof.
  intros Hd. unfold isDigit, Num.digitChar.
  rewrite Ascii.N_ascii_embedding by lia. lia.
Qed.

Lemma digitChar_inj d d' :
  (0 <= d < 10)%Z -> (0 <= d' < 10)%Z -> Num.digitChar d = Num.digitChar d' -> d = d'.
Proof.
  intros Hd Hd' H. apply (f_equal Ascii.N_of_ascii) in H. unfold Num.digitChar in H.
  rewrite !Ascii.N_ascii_embedding in H by lia. lia.
Qed.

Lemma uint_digits c (d : Decimal.uint) :
  ¬ isDigit c -> avoids c (NilEmpty.string_of_uint d).
Proof.
  intros Hc. induction d; simpl; (split; [| done]) || done;
    intros <-; apply Hc; unfold isDigit; simpl; lia.
Qed.

Lemma decimal_digits c n : ¬ isDigit c -> avoids c (Num.decimal n).
Proof.
  intros Hc. unfold Num.decimal, NilZero.string_of_uint.
  destruct (N.to_uint (Z.to_N n)) eqn:E; try (rewrite <- E; by apply uint_digits).
  simpl. split; [| done]. intros <-. apply Hc. unfold isDigit. simpl. lia.
Qed.

Lemma N_to_uint_nonnil n : N.to_uint n ≠ Decimal.Nil.
Proof. destruct n; [done | apply DecimalPos.Unsigned.to_uint_nonnil]. Qed.

Lemma decimal_inj n n' :
  (0 <= n)%Z -> (0 <= n')%Z -> Num.decimal n = Num.decimal n' -> n = n'.
Proof.
  intros Hn Hn' H. unfold Num.decimal in H.
  apply (f_equal NilZero.uint_of_string) in H.
  rewrite !NilZero.usu in H by apply N_to_uint_nonnil.
  injection H as H. apply DecimalN.Unsigned.to_uint_inj in H. lia.
Qed.

Lemma decimal_nonempty n : Num.decimal n ≠ EmptyString.
Proof.
  unfold Num.decimal. intros H. apply (f_equal NilZero.uint_of_string) in H.
  rewrite NilZero.usu in H by apply N_to_uint_nonnil. discriminate.
Qed.

Lemma lowDigits_digits c k n acc :
  ¬ isDigit c -> avoids c acc -> avoids c (Num.lowDigits k n acc).
Proof.
  intros Hc. revert n acc. induction k as [| k IH]; intros n acc Hacc; simpl; [done |].
  apply IH. simpl. split; [| done].
  intros <-. apply Hc, digitChar_isDigit, Z.mod_pos_bound. lia.
Qed.

Lemma lowDigits_inj k n n' acc acc' :
  (0 <= n < 10 ^ Z.of_nat k)%Z -> (0 <= n' < 10 ^ Z.of_nat k)%Z ->
  String.length acc = String.length acc' ->
  Num.lowDigits k n acc = Num.lowDigits k n' acc' -> n = n' ∧ acc = acc'.
Proof.
  revert n n' acc acc'. induction k as [| k IH]; intros n n' acc acc' Hn Hn' Hl; simpl.
  - intros ->. change (10 ^ Z.of_nat 0)%Z with 1%Z in *. split; [lia | done].
  - rewrite Nat2Z.inj_succ, Z.pow_succ_r in Hn, Hn' by lia.
    intros H. apply IH in H as [Hq [= Hc ->]].
    + apply digitChar_inj in Hc; try (apply Z.mod_pos_bound; lia).
      split; [| done].
      rewrite (Z.div_mod n 10), (Z.div_mod n' 10) by lia. congruence.
    + split; [apply Z.div_pos; lia | apply Z.div_lt_upper_bound; lia].
    + split; [apply Z.div_pos; lia | apply Z.div_lt_upper_bound; lia].
    + simpl. by rewrite Hl.
Qed.

Lemma point_not_digit : ¬ isDigit "."%char.
Proof. unfold isDigit. simpl. lia. Qed.

Lemma comma_not_digit : ¬ isDigit ","%char.
Proof. unfold isDigit. simpl. lia. Qed.

Lemma minus_not_digit : ¬ isDigit "-"%char.
Proof. unfold isDigit. simpl. lia. Qed.

Lemma fixed6_inj n n' :
  (0 <= n)%Z -> (0 <= n')%Z -> Num.fixed6 n = Num.fixed6 n' -> n = n'.
Proof.
  intros Hn Hn'. unfold Num.fixed6.
  change ("." +:+ ?s) with (String "."%char s).
  intros [Hd Hl]%append_split; try (apply decimal_digits, point_not_digit).
  apply decimal_inj in Hd; try (apply Z.div_pos; lia).
  apply (lowDigits_inj 6) in Hl as [Hl _]; try done; try (apply Z.mod_pos_bound; lia).
  rewrite (Z.div_mod n (10 ^ 6)), (Z.div_mod n' (10 ^ 6)) by lia. congruence.
Qed.

Lemma fixed6_avoids c n : ¬ isDigit c -> c ≠ "."%char -> avoids c (Num.fixed6 n).
Proof.
  intros Hc Hp. unfold Num.fixed6. rewrite avoids_app. split; [by apply decimal_digits |].
  change ("." +:+ ?s) with (String "."%char s). cbn [avoids]. split; [done |].
  by apply lowDigits_digits.
Qed.

Lemma fixed6_head n : ∃ c rest, Num.fixed6 n = String c rest ∧ isDigit c.
Proof.
  unfold Num.fixed6. pose proof (decimal_nonempty (n / 10 ^ 6)) as Hne.
  pose proof (decimal_digits "-"%char (n / 10 ^ 6)) as Hd.
  destruct (Num.decimal (n / 10 ^ 6)) as [| c rest] eqn:E; [done |].
  exists c. eexists. split; [reflexivity |].
  destruct (decide (isDigit c)) as [? | Hn]; [done |].
  pose proof (decimal_digits c (n / 10 ^ 6) Hn) as Hc. rewrite E in Hc. by destruct Hc.
Qed.

(** The sign and the digits are read back from what is printed. *)
Lemma signed_fixed6_inj (s s' : bool) n n' :
  (0 <= n)%Z -> (0 <= n')%Z ->
  (if s then "-" else "") +:+ Num.fixed6 n = (if s' then "-" else "") +:+ Num.fixed6 n' ->
  s = s' ∧ n = n'.
Proof.
  intros Hn Hn'. destruct (fixed6_head n) as (c & r & Hc & Hdc).
  destruct (fixed6_head n') as (c' & r' & Hc' & Hdc').
  destruct s, s'; simpl.
  - intros [= H]. by apply fixed6_inj in H.
  - rewrite Hc'. intros [= <- _]. by apply minus_not_digit in Hdc'.
  - rewrite Hc. intros [= -> _]. by apply minus_not_digit in Hdc.
  - intros H. by apply fixed6_inj in H.
Qed.

(** * Keys of coordinates *)

Lemma magnitude_positive m e : (0 < Num.magnitude m e)%Q.
Proof.
  unfold Num.magnitude. apply Qmult_lt_0_compat; [done | by apply Qpower_0_lt].
Qed.

Lemma Qfloor_unique (x : Q) (z : Z) :
  (inject_Z z <= x)%Q -> (x < inject_Z (z + 1))%Q -> Qfloor x = z.
Proof.
  intros Hlo Hhi. apply Z.le_antisymm.
  - assert (H : (inject_Z (Qfloor x) < inject_Z (z + 1))%Q)
      by (eapply Qle_lt_trans; [apply Qfloor_le | exact Hhi]).
    rewrite <- Zlt_Qlt in H. lia.
  - rewrite <- (Qfloor_Z z). by apply Qfloor_resp_le.
Qed.

(** [nearestMicro v] is the number of millionths whose cell, half a
    millionth to each side and closed below, holds [v]. *)
Lemma nearestMicro_cell (v : Q) (n : Z) :
  Num.nearestMicro v = n ↔
  (inject_Z n - (1 # 2) <= v * inject_Z (10 ^ 6) ∧ v * inject_Z (10 ^ 6) < inject_Z n + (1 # 2))%Q.
Proof.
  unfold Num.nearestMicro. split.
  - intros <-. set (x := (v * inject_Z (10 ^ 6) + (1 # 2))%Q).
    pose proof (Qfloor_le x) as Hlo. pose proof (Qlt_floor x) as Hhi.
    rewrite inject_Z_plus in Hhi. change (inject_Z 1) with 1%Q in Hhi.
    subst x. split; lra.
  - intros [Hlo Hhi]. apply Qfloor_unique; [lra |].
    rewrite inject_Z_plus. change (inject_Z 1) with 1%Q. lra.
Qed.

Lemma toFixed6_quantum (x : float) (s : bool) (n : Z) :
  quantum x = Some (s, n) ->
  Num.toFixed6 x = (if s then "-" else "") +:+ Num.fixed6 n ∧ (0 <= n)%Z.
Proof.
  unfold quantum, Num.toFixed6. destruct (Prim2SF x) as [? | ? | | sx m e]; try done.
  - by intros [= <- <-].
  - destruct (Qle_bool _ _); [done |]. intros [= <- <-]. split; [done |].
    unfold Num.nearestMicro. rewrite <- (Qfloor_Z 0). apply Qfloor_resp_le.
    pose proof (magnitude_positive m e) as Hm.
    assert (H6 : (0 < inject_Z (10 ^ 6))%Q) by done.
    pose proof (Qmult_lt_0_compat _ _ Hm H6). change (inject_Z 0) with 0%Q. lra.
Qed.

Lemma toFixed6_no_comma (x : float) :
  is_Some (quantum x) -> avoids ","%char (Num.toFixed6 x).
Proof.
  intros [[s n] [-> _]%toFixed6_quantum]. rewrite avoids_app. split.
  - by destruct s.
  - apply fixed6_avoids; [apply comma_not_digit | done].
Qed.

Lemma toFixed6_inj (x y : float) :
  is_Some (quantum x) -> is_Some (quantum y) ->
  Num.toFixed6 x = Num.toFixed6 y ↔ quantum x = quantum y.
Proof.
  intros [[s n] Hx] [[s' n'] Hy]. rewrite Hx, Hy.
  apply toFixed6_quantum in Hx as [-> Hn]. apply toFixed6_quantum in Hy as [-> Hn'].
  split.
  - intros [-> ->]%signed_fixed6_inj; done.
  - by intros [= -> ->].
Qed.

(** What a quantum says of the number: its sign, and the cell of its
    magnitude. *)
Lemma quantum_cell (x : float) (s : bool) (n : Z) :
  quantum x = Some (s, n) ->
  ∃ v, Num.value x = Some v
       ∧ (if s then v < 0 else 0 <= v)%Q
       ∧ (inject_Z n - (1 # 2) <= Qabs v * inject_Z (10 ^ 6)
          ∧ Qabs v * inject_Z (10 ^ 6) < inject_Z n + (1 # 2))%Q.
Proof.
  unfold quantum, Num.value. destruct (Prim2SF x) as [? | ? | | sx m e]; try done.
  - intros [= <- <-]. exists 0%Q. split; [done |]. split; [done |]. by split.
  - destruct (Qle_bool _ _); [done |]. intros [= <- Hn].
    apply nearestMicro_cell in Hn. pose proof (magnitude_positive m e) as Hm.
    destruct sx.
    + eexists. split; [done |]. split; [lra |].
      rewrite Qabs_opp, Qabs_pos by lra. done.
    + eexists. split; [done |]. split; [lra |]. rewrite Qabs_pos by lra. done.
Qed.

Lemma same_quantum_close (x y : float) :
  is_Some (quantum x) -> quantum x = quantum y ->
  ∃ vx vy, Num.value x = Some vx ∧ Num.value y = Some vy
           ∧ (Qabs (vx - vy) < 1 # 1000000)%Q.
Proof.
  intros [[s n] Hx] Hxy. rewrite Hx in Hxy. symmetry in Hxy.
  apply quantum_cell in Hx as (vx & Hvx & Hsx & Hcx).
  apply quantum_cell in Hxy as (vy & Hvy & Hsy & Hcy).
  exists vx, vy. split; [done |]. split; [done |].
  change (inject_Z (10 ^ 6)) with (1000000 # 1)%Q in *.
  apply Qabs_case; intros _; destruct s.
  - rewrite !Qabs_neg in * by lra. lra.
  - rewrite !Qabs_pos in * by lra. lra.
  - rewrite !Qabs_neg in * by lra. lra.
  - rewrite !Qabs_pos in * by lra. lra.
Qed.

(** C6 (as amended).  For coordinates whose components are numbers below
    10^21 in magnitude, the keys are equal exactly when, component by
    component, the signs agree and the magnitudes round, half up, to the
    same number of millionths; coordinates with equal keys are then less
    than a millionth apart in each component. *)
Theorem key_equality_is_same_quantum (a b : coord) :
  is_Some (quantum a.1) -> is_Some (quantum a.2) ->
  is_Some (quantum b.1) -> is_Some (quantum b.2) ->
  (coordKey a = coordKey b ↔ quantum a.1 = quantum b.1 ∧ quantum a.2 = quantum b.2)
  ∧ (coordKey a = coordKey b -> within (1 # 1000000) a b).
Proof.
  intros Ha1 Ha2 Hb1 Hb2.
  assert (Hiff : coordKey a = coordKey b ↔ quantum a.1 = quantum b.1 ∧ quantum a.2 = quantum b.2).
  { unfold coordKey. change ("," +:+ ?s) with (String ","%char s). split.
    - intros [H1 H2]%append_split; try by apply toFixed6_no_comma.
      by rewrite <- !toFixed6_inj.
    - intros [H1 H2]. apply toFixed6_inj in H1, H2; try done. by rewrite H1, H2. }
  split; [exact Hiff |].
  intros [H1 H2]%Hiff.
  destruct (same_quantum_close _ _ Ha1 H1) as (xa & xb & ? & ? & ?).
  destruct (same_quantum_close _ _ Ha2 H2) as (ya & yb & ? & ? & ?).
  by exists xa, ya, xb, yb.
Qed.

Lemma key_equality_is_same_quantum_witness :
  (coordKey (0x1p-21, 1)%float = coordKey (0x1p-22, 1)%float
   ↔ quantum 0x1p-21 = quantum 0x1p-22 ∧ quantum 1 = quantum 1)
  ∧ (coordKey (0x1p-21, 1)%float = coordKey (0x1p-22, 1)%float
     -> within (1 # 1000000) (0x1p-21, 1)%float (0x1p-22, 1)%float).
Proof.
  apply (key_equality_is_same_quantum (0x1p-21, 1)%float (0x1p-22, 1)%float);
    vm_compute; eauto.
Defined.

(** C6 as stated fails: two coordinates less than a tenth of a millionth
    apart that lie on either side of a rounding boundary get different keys,
    and so do two on either side of zero. *)
Lemma key_tolerance_counterexample :
  (within (1 # 10000000) (0x1p-21, 0)%float (0x1.1p-21, 0)%float
   ∧ coordKey (0x1p-21, 0)%float ≠ coordKey (0x1.1p-21, 0)%float)
  ∧ (within (1 # 10000000) (0x1p-30, 0)%float (-0x1p-30, 0)%float
     ∧ coordKey (0x1p-30, 0)%float ≠ coordKey (-0x1p-30, 0)%float).
Proof.
  split; split.
  - do 4 eexists. repeat (split; [vm_compute; reflexivity |]). split; vm_compute; reflexivity.
  - vm_compute. discriminate.
  - do 4 eexists. repeat (split; [vm_compute; reflexivity |]). split; vm_compute; reflexivity.
  - vm_compute. discriminate.
Qed.

(** C7 (as amended).  [calculateRingArea] is half the absolute value of
    the signed sum of the cross products of consecutive coordinates; it is
    never negative, and not below zero whenever it is a number (it is NaN
    when the sum overflows to the difference of two infinities); on the
    closed unit square it is exactly 1. *)
Theorem shoelace_area :
  (∀ ring : list coord,
     calculateRingArea ring = abs (signedSum 0 ring / 2)
     ∧ (calculateRingArea ring <? 0)%float = false
     ∧ (is_nan (calculateRingArea ring) = false ->
        (0 <=? calculateRingArea ring)%float = true))
  ∧ calculateRingArea unitSquare = 1%float.
Proof.
  split; [| vm_compute; reflexivity].
  intros ring. split; [apply calculateRingArea_signedSum |].
  unfold calculateRingArea. split; [apply abs_not_negative | apply abs_number_nonnegative].
Qed.

Lemma shoelace_area_witness :
  (0 <=? calculateRingArea unitSquare)%float = true.
Proof.
  apply (proj1 shoelace_area unitSquare). vm_compute. reflexivity.
Defined.

(** C7 as stated fails: on a closed triangle with corners near 2^600 both
    cross products of the first pair overflow, their difference is NaN, and
    so is the area, which is then not at or above zero. *)
Lemma area_overflow_counterexample :
  let ring := [(0x1p600, 0x1p600); (0x1p601, 0x1p601); (0x1p600, 0x1p601);
               (0x1p600, 0x1p600)]%float in
  front ring = back ring
  ∧ is_nan (calculateRingArea ring) = true
  ∧ (0 <=? calculateRingArea ring)%float = false.
Proof. cbv zeta. repeat split; vm_compute; reflexivity. Qed.

(** * Output merge *)

Lemma relabel_properties i f key :
  GeoJson.properties (relabel i f) !! key =
    if bool_decide (key = "name") then Some (GeoJson.Str ("Island " +:+ Num.decimal (Z.of_nat i)))
    else if bool_decide (key = "id") then Some (GeoJson.Str ("island-" +:+ Num.decimal (Z.of_nat i)))
    else GeoJson.properties f !! key.
Proof.
  unfold relabel. cbn [GeoJson.properties].
  repeat case_bool_decide; subst; simplify_map_eq; done.
Qed.

(** C9.  The combined collection is the mainland feature followed by one
    feature for each land feature, in order, with the same type and the same
    geometry; of the properties only [id] and [name] are set anew. *)
Theorem combined_is_mainland_then_islands (islands : list GeoJson.Feature) :
  length (combinedFeatures islands) = S (length islands)
  ∧ combinedFeatures islands !! 0 = Some mainlandFeature
  ∧ GeoJson.coordinates (GeoJson.geometry mainlandFeature) = [MAINLAND_POLYGON]
  ∧ map GeoJson.geometry (tail (combinedFeatures islands)) = map GeoJson.geometry islands
  ∧ map GeoJson.ftype (tail (combinedFeatures islands)) = map GeoJson.ftype islands
  ∧ (∀ i f, islands !! i = Some f ->
       ∃ g, combinedFeatures islands !! S i = Some g
            ∧ GeoJson.geometry g = GeoJson.geometry f
            ∧ GeoJson.properties g !! "id"
              = Some (GeoJson.Str ("island-" +:+ Num.decimal (Z.of_nat i)))
            ∧ GeoJson.properties g !! "name"
              = Some (GeoJson.Str ("Island " +:+ Num.decimal (Z.of_nat i)))
            ∧ ∀ key, key ≠ "id" -> key ≠ "name" ->
                GeoJson.properties g !! key = GeoJson.properties f !! key).
Proof.
  unfold combinedFeatures. cbn [tail length].
  assert (Hmap : ∀ (B : Type) (proj : GeoJson.Feature -> B),
             (∀ i f, proj (relabel i f) = proj f) ->
             map proj (imap relabel islands) = map proj islands).
  { intros B proj Hproj. apply list_eq. intros i.
    rewrite !list_lookup_fmap, list_lookup_imap.
    destruct (islands !! i); simpl; [by rewrite Hproj | done]. }
  split; [by rewrite length_imap |]. split; [done |]. split; [done |].
  split; [by apply Hmap |]. split; [by apply Hmap |].
  intros i f Hi. exists (relabel i f).
  split; [change ((imap relabel islands) !! i = Some (relabel i f));
          by rewrite list_lookup_imap, Hi |].
  split; [done |].
  rewrite !relabel_properties. split; [done |]. split; [done |].
  intros key Hid Hname. rewrite relabel_properties.
  by rewrite !bool_decide_eq_false_2.
Qed.

(** * What a run consumes *)

Section Consumption.
Variable segments : list (list coord).
Variable startIndex endIndex : endpointIndex.

Abbreviation step := (loopBody segments startIndex endIndex).
Abbreviation run := (extend segments startIndex endIndex).
Abbreviation visitAt := (visit segments startIndex endIndex).
Abbreviation traceOf := (extendTrace segments startIndex endIndex).
Abbreviation attemptAt := (attempt segments startIndex endIndex).
Abbreviation attemptsOver := (attemptsFrom segments startIndex endIndex).

Abbreviation isListed := (listed startIndex endIndex).

Lemma step_Continue consumed ring c ring' :
  step consumed ring = Continue c ring' ->
  (c ∉ consumed) ∧ isListed c
  ∧ (ring' = ring ++ tail (segmentAt segments c)
     ∨ ring' = ring ++ tail (rev (segmentAt segments c))).
Proof.
  unfold step. destruct (bool_decide _ && bool_decide _); [done |].
  destruct (continuation _ _ _ _ _) as [[c' s] |] eqn:E; [| by case_bool_decide].
  intros [= <- <-]. apply continuation_Some in E as (Hc & Hl & Hs).
  split; [done |]. split; [by eexists |]. destruct Hs as [-> | ->]; auto.
Qed.

Lemma run_trace budget consumed ring :
  (∀ x, x ∈ (run budget consumed ring).1 ↔ x ∈ consumed ∨ x ∈ traceOf budget consumed ring)
  ∧ NoDup (traceOf budget consumed ring)
  ∧ (∀ x, x ∈ traceOf budget consumed ring -> (x ∉ consumed) ∧ isListed x).
Proof.
  revert consumed ring. induction budget as [| budget IH]; intros consumed ring; simpl.
  - split; [| split; [constructor |]]; intros x; rewrite ?elem_of_nil; tauto.
  - destruct (step consumed ring) as [c ring' | pushed] eqn:E; simpl.
    + apply step_Continue in E as (Hc & Hl & _).
      destruct (IH ({[c]} ∪ consumed) ring') as (Hset & Hnd & Hfresh).
      split; [| split].
      * intros x. rewrite Hset, elem_of_union, elem_of_singleton, elem_of_cons. tauto.
      * constructor; [| done]. intros [Hin _]%Hfresh. apply Hin, elem_of_union_l.
        by apply elem_of_singleton.
      * intros x [-> | [Hx Hlx]%Hfresh]%elem_of_cons; [done |].
        split; [| done]. intros ?. apply Hx, elem_of_union_r. done.
    + split; [| split; [constructor |]]; intros x; rewrite ?elem_of_nil; tauto.
Qed.

Lemma run_stitched budget consumed ring trace pushed :
  stitched segments trace ring ->
  (run budget consumed ring).2 = Some pushed ->
  ∃ whole, stitched segments (trace ++ traceOf budget consumed ring) whole
           ∧ (pushed = whole ∨ pushed = whole ++ [front whole]).
Proof.
  revert consumed ring trace. induction budget as [| budget IH];
    intros consumed ring trace Hs; simpl; [done |].
  destruct (step consumed ring) as [c ring' | p] eqn:E; simpl.
  - intros Hrun. apply step_Continue in E as (_ & _ & Hring).
    destruct (IH ({[c]} ∪ consumed) ring' (trace ++ [c])) as (whole & Hw & Hp); [| done |].
    + destruct Hring as [-> | ->]; by constructor.
    + exists whole. by rewrite <- app_assoc in Hw.
  - intros ->. apply loopBody_pushed in E as (_ & _ & [-> | [-> _]]);
      exists ring; rewrite app_nil_r; auto.
Qed.

(** The rings and the consumed set after a visit, in terms of the attempt. *)
Lemma visit_attempt b i :
  rings (visitAt b i) = rings b ++ omap snd (option_list (attemptAt b i))
  ∧ (∀ x, x ∈ used (visitAt b i) ↔
            x ∈ used b ∨ x ∈ concat (option_list (attemptAt b i)).*1)
  ∧ NoDup (concat (option_list (attemptAt b i)).*1)
  ∧ (∀ x, x ∈ concat (option_list (attemptAt b i)).*1 ->
          (x ∉ used b) ∧ (2 ≤ length (segmentAt segments x) ∨ isListed x))
  ∧ (∀ trace ring, attemptAt b i = Some (trace, Some ring) ->
       ∃ whole, stitched segments trace whole
                ∧ (ring = whole ∨ ring = whole ++ [front whole])).
Proof.
  unfold visitAt, attemptAt. case_bool_decide as Hused.
  { simpl. rewrite app_nil_r. split; [done |].
    split; [intros x; rewrite elem_of_nil; tauto |]. split; [constructor |].
    split; [by intros x ?%elem_of_nil | by intros trace ring [=]]. }
  case_bool_decide as Hshort.
  { simpl. rewrite app_nil_r. split; [done |].
    split; [intros x; rewrite elem_of_nil; tauto |]. split; [constructor |].
    split; [by intros x ?%elem_of_nil | by intros trace ring [=]]. }
  case_bool_decide as Hclosed.
  - simpl. split; [done |]. split; [| split; [| split]].
    + intros x. rewrite elem_of_union, elem_of_singleton, ?app_nil_r, list_elem_of_singleton.
      tauto.
    + repeat constructor. by intros ?%elem_of_nil.
    + intros x. rewrite ?app_nil_r, list_elem_of_singleton. intros ->.
      split; [done | left; lia].
    + intros trace ring [= <- <-]. eexists. split; [constructor | by left].
  - pose proof (run_trace maxIterations ({[i]} ∪ used b) (segmentAt segments i))
      as (Hset & Hnd & Hfresh).
    pose proof (run_stitched maxIterations ({[i]} ∪ used b) (segmentAt segments i) [i])
      as Hst.
    destruct (run maxIterations ({[i]} ∪ used b) (segmentAt segments i))
      as [consumed pushed] eqn:E.
    set (trace := traceOf maxIterations ({[i]} ∪ used b) (segmentAt segments i)) in *.
    clearbody trace. clear E. simpl in *. rewrite ?app_nil_r.
    split; [by destruct pushed |]. split; [| split; [| split]].
    + intros x. rewrite Hset, elem_of_union, elem_of_singleton, elem_of_cons. tauto.
    + constructor; [| done]. intros [Hin _]%Hfresh. apply Hin, elem_of_union_l.
      by apply elem_of_singleton.
    + intros x [-> | [Hx Hl]%Hfresh]%elem_of_cons.
      * split; [done | left; lia].
      * split; [| by right]. intros ?. by apply Hx, elem_of_union_r.
    + intros trace' ring [= <- ->]. apply (Hst ring); [constructor | done].
Qed.

Lemma attempts_fold indices b :
  rings (foldl visitAt b indices) = rings b ++ omap snd (attemptsOver b indices)
  ∧ (∀ x, x ∈ used (foldl visitAt b indices) ↔
            x ∈ used b ∨ x ∈ concat (attemptsOver b indices).*1)
  ∧ NoDup (concat (attemptsOver b indices).*1)
  ∧ (∀ x, x ∈ concat (attemptsOver b indices).*1 ->
          (x ∉ used b) ∧ (2 ≤ length (segmentAt segments x) ∨ isListed x))
  ∧ (∀ trace ring, (trace, Some ring) ∈ attemptsOver b indices ->
       ∃ whole, stitched segments trace whole
                ∧ (ring = whole ∨ ring = whole ++ [front whole])).
Proof.
  revert b. induction indices as [| i indices IH]; intros b; simpl.
  - rewrite app_nil_r. split; [done |].
    split; [intros x; rewrite elem_of_nil; tauto |]. split; [constructor |].
    split; [by intros x ?%elem_of_nil | by intros trace ring ?%elem_of_nil].
  - destruct (visit_attempt b i) as (Hr & Hu & Hnd & Hfresh & Hst).
    destruct (IH (visitAt b i)) as (Hr' & Hu' & Hnd' & Hfresh' & Hst').
    rewrite fmap_app, concat_app, omap_app.
    split; [by rewrite Hr', Hr, app_assoc |]. split; [| split; [| split]].
    + intros x. rewrite Hu', Hu, elem_of_app. tauto.
    + apply NoDup_app. split; [done |]. split; [| done].
      intros x Hx [Hx' _]%Hfresh'. apply Hx', Hu. by right.
    + intros x [Hx | [Hx Hl]%Hfresh']%elem_of_app.
      * by apply Hfresh.
      * split; [| done]. intros ?. apply Hx, Hu. by left.
    + intros trace ring [Hin | Hin]%elem_of_app; [| by apply Hst'].
      destruct (attemptAt b i) as [[t r] |]; simpl in Hin; [| by apply elem_of_nil in Hin].
      apply list_elem_of_singleton in Hin as [= <- <-]. by apply Hst.
Qed.

End Consumption.

Lemma NoDup_concat_disjoint {A} (ls : list (list A)) i j (l1 l2 : list A) x :
  NoDup (concat ls) -> i ≠ j -> ls !! i = Some l1 -> ls !! j = Some l2 ->
  x ∈ l1 -> x ∈ l2 -> False.
Proof.
  revert i j. induction ls as [| l ls IH]; intros i j Hnd Hij Hi Hj H1 H2; [done |].
  simpl in Hnd. apply NoDup_app in Hnd as (_ & Hcross & Hnd).
  destruct i as [| i], j as [| j]; simpl in *; simplify_eq.
  - apply (Hcross x H1). rewrite list_elem_of_In, in_concat. exists l2.
    rewrite <- !list_elem_of_In. split; [by eapply list_elem_of_lookup_2 | done].
  - apply (Hcross x H2). rewrite list_elem_of_In, in_concat. exists l1.
    rewrite <- !list_elem_of_In. split; [by eapply list_elem_of_lookup_2 | done].
  - apply (IH i j); [done | lia | done..].
Qed.

Lemma listed_long segments c :
  listed (buildIndexes segments).1 (buildIndexes segments).2 c ->
  c < length segments ∧ 2 ≤ length (segmentAt segments c).
Proof.
  intros [key H]. rewrite candidatesAt_start, candidatesAt_end, !keyed_spec in H.
  unfold segmentAt. rewrite Nat.sub_0_r in H.
  destruct H as [(seg & Hs & _ & Hl & _) | (seg & Hs & _ & Hl & _)];
    rewrite Hs; (split; [by eapply lookup_lt_Some | done]).
Qed.

Lemma each_segment_log (segments : list (list coord)) (x : nat) :
  x ∈ used (build segments (buildIndexes segments).1 (buildIndexes segments).2)
  ↔ x ∈ concat (attempts segments).*1.
Proof.
  unfold attempts, build.
  destruct (attempts_fold segments (buildIndexes segments).1 (buildIndexes segments).2
              (seq 0 (length segments)) (Builder [] ∅)) as (_ & Hu & _).
  rewrite Hu. cbn [used]. rewrite elem_of_empty. tauto.
Qed.

(** C10.  The rings returned are those the attempts pushed; no segment
    index occurs twice among all the indices the attempts consumed, so the
    index sets of different rings are disjoint; each ring is stitched from
    the segments of its attempt, in order; and the consumed set at the end
    holds those indices and no other. *)
Theorem each_segment_consumed_once (segments : list (list coord)) :
  let log := attempts segments in
  let ix := buildIndexes segments in
  mergeSegments segments = omap snd log
  ∧ NoDup (concat log.*1)
  ∧ (∀ i j ti tj x, i ≠ j -> log.*1 !! i = Some ti -> log.*1 !! j = Some tj ->
       x ∈ ti -> x ∉ tj)
  ∧ (∀ trace ring, (trace, Some ring) ∈ log ->
       ∃ whole, stitched segments trace whole
                ∧ (ring = whole ∨ ring = whole ++ [front whole]))
  ∧ (∀ x, x ∈ used (build segments ix.1 ix.2) ↔ x ∈ concat log.*1).
Proof.
  intros log ix. subst log ix. unfold mergeSegments, attempts, build.
  destruct (attempts_fold segments (buildIndexes segments).1 (buildIndexes segments).2
              (seq 0 (length segments)) (Builder [] ∅)) as (Hr & Hu & Hnd & _ & Hst).
  split; [exact Hr |]. split; [exact Hnd |]. split; [| split; [exact Hst |]].
  - intros i j ti tj x Hij Hi Hj Hx Hx'. by eapply (NoDup_concat_disjoint _ i j ti tj x).
  - intros x. rewrite Hu. cbn [used]. rewrite elem_of_empty. tauto.
Qed.

(** * A segment of fewer than two points changes nothing *)

Lemma keyed_app endpoint key i (l1 l2 : list (list coord)) :
  keyed endpoint key i (l1 ++ l2)
  = keyed endpoint key i l1 ++ keyed endpoint key (i + length l1) l2.
Proof.
  revert i. induction l1 as [| seg l1 IH]; intros i; simpl.
  - by rewrite Nat.add_0_r.
  - rewrite IH, <- app_assoc. by replace (S i + length l1) with (i + S (length l1)) by lia.
Qed.

Lemma keyed_succ endpoint key i (l : list (list coord)) :
  keyed endpoint key (S i) l = map S (keyed endpoint key i l).
Proof.
  revert i. induction l as [| seg l IH]; intros i; simpl; [done |].
  rewrite map_app, IH. by case_bool_decide.
Qed.

Lemma keyed_bounds endpoint key i (l : list (list coord)) c :
  c ∈ keyed endpoint key i l -> i ≤ c < i + length l.
Proof.
  intros (seg & Hs%lookup_lt_Some & Hi & _)%keyed_spec. lia.
Qed.

Section Insertion.
Variable before after : list (list coord).
Variable short : list coord.
Hypothesis short_is_short : length short < 2.

Let without : list (list coord) := before ++ after.
Let with_ : list (list coord) := before ++ short :: after.
Abbreviation move := (skip (length before)).

Lemma move_inj i j : move i = move j -> i = j.
Proof. unfold skip. repeat case_bool_decide; lia. Qed.

Lemma move_misses i : move i ≠ length before.
Proof. unfold skip. case_bool_decide; lia. Qed.

Lemma segmentAt_move i : segmentAt with_ (move i) = segmentAt without i.
Proof.
  unfold segmentAt, with_, without, skip. case_bool_decide as Hi.
  - by rewrite !lookup_app_l by done.
  - rewrite !lookup_app_r by lia.
    by replace (S i - length before) with (S (i - length before)) by lia.
Qed.

Lemma segmentAt_inserted : segmentAt with_ (length before) = short.
Proof.
  unfold segmentAt, with_. rewrite lookup_app_r by lia. by rewrite Nat.sub_diag.
Qed.

Lemma keyed_move endpoint key :
  keyed endpoint key 0 with_ = map move (keyed endpoint key 0 without).
Proof.
  unfold with_, without. rewrite !keyed_app, map_app. simpl.
  rewrite bool_decide_eq_false_2 by lia. simpl. f_equal.
  - rewrite <- (map_id (keyed endpoint key 0 before)) at 1.
    apply map_ext_in. intros c Hc%list_elem_of_In%keyed_bounds.
    unfold skip. rewrite bool_decide_eq_true_2; lia.
  - rewrite keyed_succ. apply map_ext_in. intros c Hc%list_elem_of_In%keyed_bounds.
    unfold skip. rewrite bool_decide_eq_false_2; lia.
Qed.

Abbreviation starts := (buildIndexes without).1.
Abbreviation ends := (buildIndexes without).2.
Abbreviation starts' := (buildIndexes with_).1.
Abbreviation ends' := (buildIndexes with_).2.

Abbreviation same := (sameConsumed (length before)).

Lemma sameConsumed_add c consumed consumed' :
  same consumed consumed' ->
  same ({[c]} ∪ consumed) ({[move c]} ∪ consumed').
Proof.
  intros H i. rewrite !elem_of_union, !elem_of_singleton, (H i).
  split; (intros [Hc | ?]; [left | by right]); [by subst | by apply move_inj].
Qed.

Lemma firstUnused_move consumed consumed' candidates :
  same consumed consumed' ->
  firstUnused consumed' (map move candidates) = move <$> firstUnused consumed candidates.
Proof.
  intros H. induction candidates as [| c l IH]; simpl; [done |].
  destruct (decide (c ∈ consumed)) as [Hc | Hc].
  - rewrite !bool_decide_eq_false_2; [done | by intros Hn; apply Hn | ].
    intros Hn. by apply Hn, H.
  - rewrite !bool_decide_eq_true_2; [done | done |]. by rewrite <- (H c).
Qed.

Lemma continuation_move consumed consumed' key :
  same consumed consumed' ->
  continuation with_ starts' ends' consumed' key
  = prod_map move id <$> continuation without starts ends consumed key.
Proof.
  intros H. unfold continuation.
  rewrite !candidatesAt_start, !candidatesAt_end, !keyed_move, !(firstUnused_move _ _ _ H).
  destruct (firstUnused consumed (keyed front key 0 without)) as [c |]; simpl.
  - by rewrite segmentAt_move.
  - destruct (firstUnused consumed (keyed back key 0 without)) as [c |]; simpl; [| done].
    by rewrite segmentAt_move.
Qed.

Lemma loopBody_move consumed consumed' ring :
  same consumed consumed' ->
  loopBody with_ starts' ends' consumed' ring
  = match loopBody without starts ends consumed ring with
    | Continue c ring' => Continue (move c) ring'
    | Break pushed => Break pushed
    end.
Proof.
  intros H. unfold loopBody. destruct (bool_decide _ && bool_decide _); [done |].
  rewrite (continuation_move _ _ _ H).
  destruct (continuation without starts ends consumed _) as [[c s] |]; simpl; [done |].
  by case_bool_decide.
Qed.

Lemma extend_move budget consumed consumed' ring :
  same consumed consumed' ->
  (extend with_ starts' ends' budget consumed' ring).2
  = (extend without starts ends budget consumed ring).2
  ∧ same (extend without starts ends budget consumed ring).1
      (extend with_ starts' ends' budget consumed' ring).1.
Proof.
  revert consumed consumed' ring. induction budget as [| budget IH];
    intros consumed consumed' ring H; simpl; [done |].
  rewrite (loopBody_move _ _ _ H).
  destruct (loopBody without starts ends consumed ring) as [c ring' | pushed]; [| done].
  apply IH. by apply sameConsumed_add.
Qed.

Lemma visit_move b b' i :
  rings b' = rings b -> same (used b) (used b') ->
  rings (visit with_ starts' ends' b' (move i)) = rings (visit without starts ends b i)
  ∧ same (used (visit without starts ends b i))
      (used (visit with_ starts' ends' b' (move i))).
Proof.
  intros Hr Hu. unfold visit. rewrite segmentAt_move.
  destruct (decide (i ∈ used b)) as [Hi | Hi].
  { rewrite (bool_decide_eq_true_2 (i ∈ used b)) by done.
    rewrite (bool_decide_eq_true_2 (move i ∈ used b')) by (by apply Hu). done. }
  rewrite (bool_decide_eq_false_2 (i ∈ used b)) by done.
  rewrite (bool_decide_eq_false_2 (move i ∈ used b')) by (by rewrite <- (Hu i)).
  case_bool_decide; [done |]. case_bool_decide.
  - simpl. rewrite Hr. split; [done | by apply sameConsumed_add].
  - pose proof (extend_move maxIterations ({[i]} ∪ used b) ({[move i]} ∪ used b')
                  (segmentAt without i) (sameConsumed_add _ _ _ Hu)) as [Hp Hs].
    destruct (extend with_ _ _ _ _ _) as [u' p'], (extend without _ _ _ _ _) as [u p].
    simpl in *. by rewrite Hr, Hp.
Qed.

Lemma visit_inserted b' : visit with_ starts' ends' b' (length before) = b'.
Proof.
  unfold visit. case_bool_decide; [done |].
  rewrite segmentAt_inserted. by rewrite bool_decide_eq_true_2.
Qed.

Lemma foldl_visit_move indices b b' :
  rings b' = rings b -> same (used b) (used b') ->
  rings (foldl (visit with_ starts' ends') b' (map move indices))
  = rings (foldl (visit without starts ends) b indices).
Proof.
  revert b b'. induction indices as [| i indices IH]; intros b b' Hr Hu; simpl; [done |].
  destruct (visit_move b b' i Hr Hu) as [Hr' Hu']. by apply IH.
Qed.

Lemma seq_with_inserted :
  ∃ l1 l2, seq 0 (length with_) = l1 ++ length before :: l2
           ∧ map move (seq 0 (length without)) = l1 ++ l2.
Proof.
  exists (seq 0 (length before)), (seq (S (length before)) (length after)).
  unfold with_, without. rewrite !length_app. cbn [length].
  rewrite !seq_app, map_app. simpl. split.
  - reflexivity.
  - f_equal.
    + rewrite <- (map_id (seq 0 (length before))) at 2. apply map_ext_in.
      intros c Hc%in_seq. unfold skip. rewrite bool_decide_eq_true_2; lia.
    + rewrite <- seq_shift. apply map_ext_in.
      intros c Hc%in_seq. unfold skip. rewrite bool_decide_eq_false_2; lia.
Qed.

Lemma mergeSegments_inserted : mergeSegments with_ = mergeSegments without.
Proof.
  unfold mergeSegments, build. destruct seq_with_inserted as (l1 & l2 & -> & Hmove).
  rewrite foldl_app. cbn [foldl]. rewrite visit_inserted, <- foldl_app, <- Hmove.
  apply foldl_visit_move; [done |]. intros i. cbn [used]. rewrite !elem_of_empty. tauto.
Qed.

End Insertion.

(** C8.  A segment of fewer than two coordinates is in neither index, is
    never marked consumed, and is in no attempt, so no ring holds a
    coordinate of it; putting one anywhere into the input leaves the rings
    as they were. *)
Theorem short_segments_take_no_part :
  (∀ segments c,
     listed (buildIndexes segments).1 (buildIndexes segments).2 c ->
     2 ≤ length (segmentAt segments c))
  ∧ (∀ segments c,
       c ∈ used (build segments (buildIndexes segments).1 (buildIndexes segments).2) ->
       2 ≤ length (segmentAt segments c))
  ∧ (∀ segments c,
       c ∈ concat (attempts segments).*1 -> 2 ≤ length (segmentAt segments c))
  ∧ (∀ before short after,
       length short < 2 ->
       mergeSegments (before ++ short :: after) = mergeSegments (before ++ after)).
Proof.
  assert (Hlog : ∀ segments c,
            c ∈ concat (attempts segments).*1 -> 2 ≤ length (segmentAt segments c)).
  { intros segments c Hc. unfold attempts in Hc.
    destruct (attempts_fold segments (buildIndexes segments).1 (buildIndexes segments).2
                (seq 0 (length segments)) (Builder [] ∅)) as (_ & _ & _ & Hlong & _).
    destruct (Hlong c Hc) as [_ [? | ?%listed_long]]; [done | tauto]. }
  split; [| split; [| split]].
  - intros segments c Hc. by apply listed_long in Hc as [_ ?].
  - intros segments c Hc. apply Hlog.
    by apply (each_segment_log segments).
  - exact Hlog.
  - intros before short after Hshort. by apply mergeSegments_inserted.
Qed.

(** * The theorems at concrete inputs *)

Lemma closure_checked_before_search_witness :
  loopBody
    [[(0, 0); (1, 0); (1, 1)]; [(1, 1); (0, 1); (0, 0)]; [(0, 0); (5, 5)]]%float
    (buildIndexes
       [[(0, 0); (1, 0); (1, 1)]; [(1, 1); (0, 1); (0, 0)]; [(0, 0); (5, 5)]]%float).1
    (buildIndexes
       [[(0, 0); (1, 0); (1, 1)]; [(1, 1); (0, 1); (0, 0)]; [(0, 0); (5, 5)]]%float).2
    {[0; 1]} unitSquare
  = Break (Some unitSquare).
Proof.
  apply (closure_checked_before_search
           [[(0, 0); (1, 0); (1, 1)]; [(1, 1); (0, 1); (0, 0)]; [(0, 0); (5, 5)]]%float).
  split; [vm_compute; reflexivity | simpl; lia].
Defined.

Lemma land_masses_filtered_ranked_truncated_witness :
  unitSquare ∈ [unitSquare] ∧ (0.0001 <? calculateRingArea unitSquare)%float = true.
Proof.
  apply (land_masses_filtered_ranked_truncated [unitSquare]).
  vm_compute. apply list_elem_of_here.
Defined.

Lemma short_segments_take_no_part_witness :
  mergeSegments ([[(0, 0); (1, 0); (1, 1)]%float] ++ [(5, 5)%float]
                   :: [[(1, 1); (0, 1); (0, 0)]%float])
  = mergeSegments ([[(0, 0); (1, 0); (1, 1)]%float] ++ [[(1, 1); (0, 1); (0, 0)]%float]).
Proof.
  apply short_segments_take_no_part. simpl. lia.
Defined.

Lemma combined_is_mainland_then_islands_witness :
  ∃ g, combinedFeatures [landFeature 0 unitSquare] !! 1 = Some g
       ∧ GeoJson.geometry g = GeoJson.geometry (landFeature 0 unitSquare)
       ∧ GeoJson.properties g !! "id" = Some (GeoJson.Str "island-0")
       ∧ GeoJson.properties g !! "name" = Some (GeoJson.Str "Island 0")
       ∧ ∀ key, key ≠ "id" -> key ≠ "name" ->
           GeoJson.properties g !! key
           = GeoJson.properties (landFeature 0 unitSquare) !! key.
Proof.
  apply (combined_is_mainland_then_islands [landFeature 0 unitSquare]). reflexivity.
Defined.

Lemma each_segment_consumed_once_witness :
  ∃ whole,
    stitched [[(0, 0); (1, 0); (1, 1)]; [(1, 1); (0, 1); (0, 0)]]%float [0; 1] whole
    ∧ (unitSquare = whole ∨ unitSquare = whole ++ [front whole]).
Proof.
  apply (each_segment_consumed_once
           [[(0, 0); (1, 0); (1, 1)]; [(1, 1); (0, 1); (0, 0)]]%float).
  vm_compute. apply list_elem_of_here.
Defined.

(** * More about the ring builder *)

Section Origin.
Variable segments : list (list coord).
Variable startIndex endIndex : endpointIndex.

Abbreviation step := (loopBody segments startIndex endIndex).
Abbreviation run := (extend segments startIndex endIndex).
Abbreviation visitAt := (visit segments startIndex endIndex).

Abbreviation ofInput := (fromInput segments).

Lemma segmentAt_fromInput i : ofInput (segmentAt segments i).
Proof.
  intros c Hc. unfold segmentAt in Hc. destruct (segments !! i) as [seg |] eqn:E.
  - exists seg. split; [by eapply list_elem_of_lookup_2 | done].
  - by apply elem_of_nil in Hc.
Qed.

Lemma elem_of_tail_1 (c : coord) (l : list coord) : c ∈ tail l -> c ∈ l.
Proof. destruct l; simpl; [done | by right]. Qed.

Lemma fromInput_app ring more :
  ofInput ring -> ofInput more -> ofInput (ring ++ more).
Proof. intros H1 H2 c [? | ?]%elem_of_app; auto. Qed.

Lemma fromInput_piece i :
  ofInput (tail (segmentAt segments i)) ∧ ofInput (tail (rev (segmentAt segments i))).
Proof.
  split; intros c Hc%elem_of_tail_1.
  - by apply segmentAt_fromInput in Hc.
  - apply list_elem_of_In, in_rev, list_elem_of_In in Hc. by apply segmentAt_fromInput in Hc.
Qed.

Lemma run_fromInput budget consumed ring consumed' pushed :
  ofInput ring -> run budget consumed ring = (consumed', Some pushed) -> ofInput pushed.
Proof.
  revert consumed ring. induction budget as [| budget IH]; intros consumed ring Hr; simpl;
    [done |].
  destruct (step consumed ring) as [c ring' | p] eqn:E.
  - apply IH. apply step_Continue in E as (_ & _ & [-> | ->]);
      apply fromInput_app; try done; apply fromInput_piece.
  - intros [= <- ->]. apply loopBody_pushed in E as (_ & _ & [-> | [-> Hlen]]); [done |].
    apply fromInput_app; [done |]. intros c ->%list_elem_of_singleton.
    apply Hr. destruct ring; simpl in *; [lia | by left].
Qed.

Lemma foldl_visit_fromInput indices b :
  Forall ofInput (rings b) -> Forall ofInput (rings (foldl visitAt b indices)).
Proof.
  revert b. induction indices as [| i indices IH]; intros b Hb; simpl; [done |].
  apply IH. unfold visitAt. case_bool_decide; [done |]. case_bool_decide; [done |].
  case_bool_decide.
  - simpl. apply Forall_app. split; [done |]. repeat constructor. apply segmentAt_fromInput.
  - destruct (run maxIterations _ _) as [consumed pushed] eqn:E. cbn [rings].
    apply Forall_app. split; [done |]. destruct pushed as [r |]; cbn [option_list];
      [| constructor].
    repeat constructor. eapply run_fromInput; [| exact E]. apply segmentAt_fromInput.
Qed.

Lemma run_break budget consumed ring pushed :
  0 < budget -> step consumed ring = Break pushed ->
  run budget consumed ring = (consumed, pushed).
Proof. destruct budget; [lia |]. simpl. by intros _ ->. Qed.

End Origin.

(** X1.  [mergeSegments] makes up no coordinate: every point of every
    ring it returns is a point of one of the input segments. *)
Theorem rings_made_of_input_points (segments : list (list coord)) (ring : list coord) (c : coord) :
  ring ∈ mergeSegments segments -> c ∈ ring -> ∃ seg, seg ∈ segments ∧ c ∈ seg.
Proof.
  intros Hring Hc. unfold mergeSegments, build in Hring.
  pose proof (foldl_visit_fromInput segments (buildIndexes segments).1
                (buildIndexes segments).2 (seq 0 (length segments)) (Builder [] ∅)
                (Forall_nil_2 _)) as Hall.
  rewrite Forall_forall in Hall. by apply (Hall ring Hring).
Qed.

Lemma rings_made_of_input_points_witness :
  ∃ seg, seg ∈ [[(0, 0); (1, 0); (1, 1)]; [(1, 1); (0, 1); (0, 0)]]%float
         ∧ (0, 1)%float ∈ seg.
Proof.
  apply (rings_made_of_input_points
           [[(0, 0); (1, 0); (1, 1)]; [(1, 1); (0, 1); (0, 0)]]%float unitSquare).
  - rewrite forward_stitch. apply list_elem_of_here.
  - unfold unitSquare. do 3 apply list_elem_of_further. apply list_elem_of_here.
Defined.

(** * Segments of fewer than two points, all at once *)

Lemma mergeSegments_without_short (before rest : list (list coord)) :
  mergeSegments (before ++ rest)
  = mergeSegments (before ++ List.filter (fun seg => bool_decide (2 ≤ length seg)) rest).
Proof.
  revert before. induction rest as [| seg rest IH]; intros before; [done |].
  simpl. case_bool_decide as Hlong.
  - rewrite (cons_middle seg before rest), app_assoc, IH, <- app_assoc. done.
  - rewrite mergeSegments_inserted by lia. apply IH.
Qed.

Lemma attempts_nonempty segments startIndex endIndex indices b trace pushed :
  (trace, pushed) ∈ attemptsFrom segments startIndex endIndex b indices -> trace ≠ [].
Proof.
  revert b. induction indices as [| i indices IH]; intros b; cbn [attemptsFrom].
  - by intros ?%elem_of_nil.
  - intros [Hin | Hin]%elem_of_app; [| exact (IH _ Hin)].
    destruct (attempt segments startIndex endIndex b i) as [[t p] |] eqn:E;
      cbn [option_list] in Hin; [| by apply elem_of_nil in Hin].
    apply list_elem_of_singleton in Hin. intros ->.
    unfold attempt in E.
    destruct (bool_decide (i ∈ used b)); [congruence |].
    destruct (bool_decide (length (segmentAt segments i) < 2)); [congruence |].
    destruct (bool_decide (coordKey _ = coordKey _)); congruence.
Qed.

Lemma length_le_concat {A} (ls : list (list A)) :
  (∀ l, l ∈ ls -> l ≠ []) -> length ls ≤ length (concat ls).
Proof.
  induction ls as [| l ls IH]; intros Hne; simpl; [done |].
  rewrite length_app. assert (l ≠ []) by (apply Hne; by left).
  assert (length ls ≤ length (concat ls)) by (apply IH; intros; apply Hne; by right).
  destruct l; simpl; [done | lia].
Qed.

Lemma length_omap_le {A B} (f : A -> option B) (l : list A) :
  length (omap f l) ≤ length l.
Proof. induction l as [| x l IH]; csimpl; [done |]. destruct (f x); csimpl; lia. Qed.

Lemma mergeSegments_count (segments : list (list coord)) :
  length (mergeSegments segments) ≤ length segments.
Proof.
  unfold mergeSegments, build.
  destruct (attempts_fold segments (buildIndexes segments).1 (buildIndexes segments).2
              (seq 0 (length segments)) (Builder [] ∅)) as (Hr & _ & Hnd & Hlong & _).
  rewrite Hr. cbn [rings app].
  set (log := attemptsFrom _ _ _ _ _) in *.
  transitivity (length log); [apply length_omap_le |].
  transitivity (length (concat log.*1)).
  { rewrite <- (length_fmap fst log). apply length_le_concat.
    intros l [[t p] [-> Hin]]%list_elem_of_fmap. by eapply attempts_nonempty. }
  transitivity (length (seq 0 (length segments))); [| by rewrite length_seq].
  apply NoDup_incl_length; [by apply NoDup_ListNoDup |].
  intros x Hx%list_elem_of_In. apply in_seq. split; [lia |]. simpl.
  destruct (Hlong x Hx) as [_ [Hl | [_ Hl]%listed_long]];
    unfold segmentAt in Hl; destruct (segments !! x) eqn:E;
    try (simpl in Hl; lia); by eapply lookup_lt_Some.
Qed.

(** X2.  Segments of fewer than two points can all be struck from the
    input at once without changing the rings, and there are at most as many
    rings as there are segments of two points or more. *)
Theorem rings_bounded_by_long_segments (segments : list (list coord)) :
  let long := List.filter (fun seg => bool_decide (2 ≤ length seg)) segments in
  mergeSegments segments = mergeSegments long
  ∧ length (mergeSegments segments) ≤ length long.
Proof.
  intros long. subst long.
  pose proof (mergeSegments_without_short [] segments) as H. simpl in H.
  split; [exact H |]. rewrite H. apply mergeSegments_count.
Qed.

(** * Ways that are rings already *)

Section ClosedWays.
Variable segments : list (list coord).
Variable startIndex endIndex : endpointIndex.
Hypothesis closed_ways :
  ∀ seg, seg ∈ segments -> 2 ≤ length seg -> keyClosed seg.

Lemma foldl_visit_closed m k b :
  (∀ x, x ∈ used b -> x < k) -> k + m ≤ length segments ->
  rings (foldl (visit segments startIndex endIndex) b (seq k m))
  = rings b ++ List.filter (fun seg => bool_decide (2 ≤ length seg)) (take m (drop k segments)).
Proof.
  revert k b. induction m as [| m IH]; intros k b Hused Hk; simpl.
  - by rewrite app_nil_r.
  - destruct (lookup_lt_is_Some_2 segments k ltac:(lia)) as [seg Hseg].
    rewrite (drop_S _ _ _ Hseg). cbn [take List.filter].
    unfold visit at 2. unfold segmentAt. rewrite Hseg. cbn [default].
    rewrite bool_decide_eq_false_2 by (intros ?%Hused; lia).
    destruct (decide (2 ≤ length seg)) as [Hlong | Hshort].
    + rewrite (bool_decide_eq_false_2 (length seg < 2)) by lia.
      rewrite (bool_decide_eq_true_2 (2 ≤ length seg)) by done.
      rewrite bool_decide_eq_true_2
        by (apply closed_ways; [by eapply list_elem_of_lookup_2 | done]).
      rewrite IH; [cbn [rings]; by rewrite <- app_assoc | | lia].
      cbn [used]. intros x [->%elem_of_singleton | ?%Hused]%elem_of_union; lia.
    + rewrite (bool_decide_eq_true_2 (length seg < 2)) by lia.
      rewrite (bool_decide_eq_false_2 (2 ≤ length seg)) by done.
      apply IH; [| lia]. intros x ?%Hused. lia.
Qed.
End ClosedWays.

(** X3.  When every way of two points or more is closed already (its end
    points have the same key), [mergeSegments] returns exactly these ways,
    unchanged and in the order of the input. *)
Theorem closed_ways_pass_through (segments : list (list coord)) :
  (∀ seg, seg ∈ segments -> 2 ≤ length seg -> keyClosed seg) ->
  mergeSegments segments
  = List.filter (fun seg => bool_decide (2 ≤ length seg)) segments.
Proof.
  intros Hclosed. unfold mergeSegments, build.
  rewrite (foldl_visit_closed segments _ _ Hclosed (length segments) 0 (Builder [] ∅)).
  - by rewrite drop_0, firstn_all.
  - intros x. cbn [used]. by rewrite elem_of_empty.
  - done.
Qed.

Lemma closed_ways_pass_through_witness :
  mergeSegments [unitSquare; [(7, 7)]; [(2, 2); (3, 2); (2, 2)]]%float
  = [unitSquare; [(2, 2); (3, 2); (2, 2)]%float].
Proof.
  apply (closed_ways_pass_through [unitSquare; [(7, 7)]; [(2, 2); (3, 2); (2, 2)]]%float).
  intros seg Hseg Hlong.
  apply list_elem_of_In in Hseg. simpl in Hseg.
  destruct Hseg as [<- | [<- | [<- | []]]]; [| simpl in Hlong; lia |]; vm_compute; reflexivity.
Defined.

(** * A way on its own *)

Lemma lone_way_body (seg : list coord) :
  2 ≤ length seg -> ¬ keyClosed seg ->
  loopBody [seg] (buildIndexes [seg]).1 (buildIndexes [seg]).2 ({[0]} ∪ ∅) seg
  = Break (if bool_decide (10 < length seg) then Some (seg ++ [front seg]) else None).
Proof.
  intros Hlong Hopen. rewrite loopBody_open by (intros [? _]; done).
  unfold continuation. rewrite candidatesAt_start, candidatesAt_end. cbn [keyed].
  rewrite bool_decide_eq_false_2 by (intros [_ ?]; done).
  rewrite bool_decide_eq_true_2 by done. cbn [app firstUnused find].
  rewrite bool_decide_eq_false_2; [by case_bool_decide |].
  intros Hn. apply Hn, elem_of_union_l. by apply elem_of_singleton.
Qed.

(** X4.  A single open way of two points or more is closed by force, its
    first point put at its end, when it has more than ten points, and is
    dropped when it has ten or fewer. *)
Theorem lone_open_way (seg : list coord) :
  2 ≤ length seg -> coordKey (front seg) ≠ coordKey (back seg) ->
  mergeSegments [seg]
  = if bool_decide (10 < length seg) then [seg ++ [front seg]] else [].
Proof.
  intros Hlong Hopen. unfold mergeSegments, build. cbn [length seq foldl].
  unfold visit. change (segmentAt [seg] 0) with seg. cbn [used rings].
  rewrite bool_decide_eq_false_2 by apply not_elem_of_empty.
  rewrite bool_decide_eq_false_2 by lia.
  rewrite bool_decide_eq_false_2 by done.
  rewrite (run_break _ _ _ maxIterations _ _ _ ltac:(apply Nat.ltb_lt; vm_compute; reflexivity)
             (lone_way_body seg Hlong Hopen)).
  by case_bool_decide.
Qed.

Lemma lone_open_way_witness :
  mergeSegments [[(0, 0); (1, 0); (1, 1)]%float] = [].
Proof.
  apply (lone_open_way [(0, 0); (1, 0); (1, 1)]%float); [simpl; lia |].
  vm_compute. discriminate.
Defined.

(** * What the indexes hold, and which candidate is taken *)

Lemma keyed_sorted endpoint key i (l : list (list coord)) :
  StronglySorted lt (keyed endpoint key i l).
Proof.
  revert i. induction l as [| seg l IH]; intros i; simpl; [constructor |].
  case_bool_decide; simpl; [| apply IH].
  constructor; [apply IH |]. apply Forall_forall. intros x Hx%keyed_bounds. lia.
Qed.

(** X5.  The starts index holds at a key exactly the indices of the
    segments of two points or more whose first coordinate has that key, the
    ends index those whose last coordinate has it; both list them in
    increasing order, each once. *)
Theorem endpoint_index_contents (segments : list (list coord)) (key : string) :
  (∀ c, c ∈ candidatesAt (buildIndexes segments).1 key ↔
        ∃ seg, segments !! c = Some seg ∧ 2 ≤ length seg ∧ coordKey (front seg) = key)
  ∧ (∀ c, c ∈ candidatesAt (buildIndexes segments).2 key ↔
          ∃ seg, segments !! c = Some seg ∧ 2 ≤ length seg ∧ coordKey (back seg) = key)
  ∧ StronglySorted lt (candidatesAt (buildIndexes segments).1 key)
  ∧ StronglySorted lt (candidatesAt (buildIndexes segments).2 key).
Proof.
  rewrite candidatesAt_start, candidatesAt_end.
  split; [| split; [| split; apply keyed_sorted]].
  - intros c. rewrite keyed_spec, Nat.sub_0_r. split.
    + intros (seg & ? & _ & ? & ?). by exists seg.
    + intros (seg & ? & ? & ?). exists seg. repeat split; [done | lia | done..].
  - intros c. rewrite keyed_spec, Nat.sub_0_r. split.
    + intros (seg & ? & _ & ? & ?). by exists seg.
    + intros (seg & ? & ? & ?). exists seg. repeat split; [done | lia | done..].
Qed.

Lemma firstUnused_split consumed candidates c :
  firstUnused consumed candidates = Some c ->
  ∃ pre post, candidates = pre ++ c :: post ∧ (∀ x, x ∈ pre -> x ∈ consumed) ∧ c ∉ consumed.
Proof.
  induction candidates as [| x l IH]; simpl; [done |].
  case_bool_decide as Hx.
  - intros [= ->]. exists [], l. split; [done |]. split; [by intros ? ?%elem_of_nil | done].
  - intros (pre & post & -> & Hpre & Hc)%IH. exists (x :: pre), post.
    split; [done |]. split; [| done].
    intros y [-> | ?]%elem_of_cons; [done | by apply Hpre].
Qed.

Lemma firstUnused_None consumed candidates :
  firstUnused consumed candidates = None -> ∀ x, x ∈ candidates -> x ∈ consumed.
Proof.
  intros Hnone x Hx%list_elem_of_In. pose proof (find_none _ _ Hnone x Hx) as H.
  apply bool_decide_eq_false in H. destruct (decide (x ∈ consumed)); [done | by exfalso; apply H].
Qed.

Lemma firstUnused_least consumed candidates c :
  StronglySorted lt candidates -> firstUnused consumed candidates = Some c ->
  c ∈ candidates ∧ (c ∉ consumed)
  ∧ ∀ c', c' ∈ candidates -> c' ∉ consumed -> c ≤ c'.
Proof.
  intros Hs (pre & post & -> & Hpre & Hc)%firstUnused_split.
  split; [apply elem_of_app; right; by left |]. split; [done |].
  intros c' [Hin | [-> | Hin]%elem_of_cons]%elem_of_app Hfree.
  - by apply Hpre in Hin.
  - done.
  - apply StronglySorted_app_1_r in Hs. apply StronglySorted_cons in Hs as [Hall _].
    rewrite Forall_forall in Hall. specialize (Hall c' Hin). lia.
Qed.

(** X6.  When a pass takes a continuation, it is the unconsumed candidate
    of least index among the segments that start at the end of the ring,
    taken forward; only when there is none is it the unconsumed candidate of
    least index among those that end there, taken reversed. *)
Theorem continuation_is_least_index (segments : list (list coord)) (consumed : gset nat)
    (ring ring' : list coord) (c : nat) :
  let starts := candidatesAt (buildIndexes segments).1 (coordKey (back ring)) in
  let ends := candidatesAt (buildIndexes segments).2 (coordKey (back ring)) in
  loopBody segments (buildIndexes segments).1 (buildIndexes segments).2 consumed ring
    = Continue c ring' ->
  (c ∉ consumed)
  ∧ ((c ∈ starts ∧ ring' = ring ++ tail (segmentAt segments c)
      ∧ ∀ c', c' ∈ starts -> c' ∉ consumed -> c ≤ c')
     ∨ ((∀ c', c' ∈ starts -> c' ∈ consumed)
        ∧ c ∈ ends ∧ ring' = ring ++ tail (rev (segmentAt segments c))
        ∧ ∀ c', c' ∈ ends -> c' ∉ consumed -> c ≤ c')).
Proof.
  intros starts ends. unfold loopBody.
  destruct (bool_decide _ && bool_decide _); [done |].
  unfold continuation. fold starts ends.
  assert (Hs : StronglySorted lt starts)
    by (unfold starts; rewrite candidatesAt_start; apply keyed_sorted).
  assert (He : StronglySorted lt ends)
    by (unfold ends; rewrite candidatesAt_end; apply keyed_sorted).
  destruct (firstUnused consumed starts) as [c1 |] eqn:E1.
  - intros [= <- <-]. apply (firstUnused_least _ _ _ Hs) in E1 as (? & ? & ?).
    split; [done |]. left. done.
  - destruct (firstUnused consumed ends) as [c2 |] eqn:E2; [| by case_bool_decide].
    intros [= <- <-]. apply (firstUnused_least _ _ _ He) in E2 as (? & ? & ?).
    split; [done |]. right. split; [by apply firstUnused_None |]. done.
Qed.

Lemma continuation_is_least_index_witness :
  (1 ∉ ({[0]} : gset nat))
  ∧ ((1 ∈ candidatesAt
            (buildIndexes [[(0, 0); (1, 0)]; [(1, 0); (2, 0)]; [(1, 0); (3, 0)]]%float).1
            (coordKey (back [(0, 0); (1, 0)]%float))
      ∧ [(0, 0); (1, 0); (2, 0)]%float
        = [(0, 0); (1, 0)]%float
            ++ tail (segmentAt [[(0, 0); (1, 0)]; [(1, 0); (2, 0)]; [(1, 0); (3, 0)]]%float 1)
      ∧ ∀ c', c' ∈ candidatesAt
                     (buildIndexes
                        [[(0, 0); (1, 0)]; [(1, 0); (2, 0)]; [(1, 0); (3, 0)]]%float).1
                     (coordKey (back [(0, 0); (1, 0)]%float)) ->
              c' ∉ ({[0]} : gset nat) -> 1 ≤ c')
     ∨ ((∀ c', c' ∈ candidatesAt
                      (buildIndexes
                         [[(0, 0); (1, 0)]; [(1, 0); (2, 0)]; [(1, 0); (3, 0)]]%float).1
                      (coordKey (back [(0, 0); (1, 0)]%float)) ->
               c' ∈ ({[0]} : gset nat))
        ∧ 1 ∈ candidatesAt
                (buildIndexes [[(0, 0); (1, 0)]; [(1, 0); (2, 0)]; [(1, 0); (3, 0)]]%float).2
                (coordKey (back [(0, 0); (1, 0)]%float))
        ∧ [(0, 0); (1, 0); (2, 0)]%float
          = [(0, 0); (1, 0)]%float
              ++ tail (rev (segmentAt
                              [[(0, 0); (1, 0)]; [(1, 0); (2, 0)]; [(1, 0); (3, 0)]]%float 1))
        ∧ ∀ c', c' ∈ candidatesAt
                       (buildIndexes
                          [[(0, 0); (1, 0)]; [(1, 0); (2, 0)]; [(1, 0); (3, 0)]]%float).2
                       (coordKey (back [(0, 0); (1, 0)]%float)) ->
                c' ∉ ({[0]} : gset nat) -> 1 ≤ c')).
Proof.
  apply (continuation_is_least_index
           [[(0, 0); (1, 0)]; [(1, 0); (2, 0)]; [(1, 0); (3, 0)]]%float {[0]}
           [(0, 0); (1, 0)]%float [(0, 0); (1, 0); (2, 0)]%float 1).
  vm_compute. reflexivity.
Defined.

(** * The written collections *)

Lemma mainLandFeatures_kept rings r :
  r ∈ mainLandFeatures rings -> r ∈ rings ∧ significant r = true.
Proof.
  unfold mainLandFeatures. intros Hr%(subseteq_take 50).
  destruct (sorted_significant rings) as [_ Hp]. rewrite Hp in Hr.
  by apply significantRings_spec.
Qed.

Lemma mainLandFeatures_length rings : length (mainLandFeatures rings) ≤ 50.
Proof. unfold mainLandFeatures. rewrite length_take. lia. Qed.



(** * Elements the pipeline ignores *)

(** [element] contributes no segment, or one of fewer than two points. *)
Definition negligible (element : Osm.OsmWay) : Prop :=
  Osm.type element ≠ "way"
  ∨ match Osm.geometry element with
    | None => True
    | Some g => length g < 2
    end.

Lemma extractSegments_app l1 l2 :
  extractSegments (l1 ++ l2) = extractSegments l1 ++ extractSegments l2.
Proof. unfold extractSegments. apply omap_app. Qed.

Lemma extractSegments_negligible element :
  negligible element ->
  extractSegments [element] = []
  ∨ ∃ short, extractSegments [element] = [short] ∧ length short < 2.
Proof.
  unfold negligible, extractSegments. csimpl. intros [Ht | Hg].
  - left. by rewrite bool_decide_eq_false_2.
  - case_bool_decide; [| by left]. destruct (Osm.geometry element) as [g |]; csimpl; [| by left].
    right. eexists. split; [done |]. by rewrite length_map.
Qed.

(** X8.  An element that is not a way, has no geometry, or has a geometry
    of fewer than two points can be taken out of the input, wherever it
    stands, without changing what [processCoastlineData] writes. *)
Theorem negligible_elements_ignored (before after : list Osm.OsmWay) (element : Osm.OsmWay) :
  negligible element ->
  processCoastlineData (before ++ element :: after) = processCoastlineData (before ++ after).
Proof.
  intros Hn. unfold processCoastlineData.
  rewrite (cons_middle element), !extractSegments_app.
  destruct (extractSegments_negligible element Hn) as [-> | (short & -> & Hshort)]; [done |].
  change ([short] ++ ?l) with (short :: l).
  by rewrite (mergeSegments_inserted _ _ short Hshort).
Qed.

Lemma negligible_elements_ignored_witness :
  processCoastlineData
    ([] ++ {| Osm.type := "node"; Osm.id := 7; Osm.geometry := None; Osm.nodes := [] |} :: [])
  = processCoastlineData ([] ++ []).
Proof.
  apply negligible_elements_ignored. left. simpl. discriminate.
Defined.

(** * Filtering and ranking again *)

Lemma filter_all {A} (p : A -> bool) (l : list A) :
  (∀ x, x ∈ l -> p x = true) -> List.filter p l = l.
Proof.
  induction l as [| x l IH]; intros Hall; simpl; [done |].
  rewrite (Hall x) by (by left). f_equal. apply IH. intros y Hy. apply Hall. by right.
Qed.

Lemma sortBy_sorted_id {A} (comparefn : A -> A -> float) (weight : A -> Z)
    (good : A -> Prop) (l : list A) :
  (∀ x y, good x -> good y -> (0 <? comparefn x y)%float = (weight x <? weight y)%Z) ->
  Forall good l -> StronglySorted (heavierFirst weight) l -> sortBy comparefn l = l.
Proof.
  intros Hcmp Hg Hs. induction Hs as [| x l Hs IH Hx]; [done |].
  apply Forall_cons in Hg as [Hgx Hgl]. unfold sortBy in *. cbn [foldr].
  rewrite (IH Hgl). destruct l as [| y l]; [done |]. cbn [insertBy].
  apply Forall_cons in Hgl as [Hgy _]. apply Forall_cons in Hx as [Hxy _].
  rewrite Hcmp by done. unfold heavierFirst in Hxy.
  by rewrite (proj2 (Z.ltb_ge _ _) Hxy).
Qed.

(** X9.  Filtering and ranking what was already filtered and ranked changes
    nothing. *)
Theorem mainLandFeatures_idempotent (rings : list (list coord)) :
  mainLandFeatures (mainLandFeatures rings) = mainLandFeatures rings.
Proof.
  set (kept := mainLandFeatures rings).
  assert (Hsig : ∀ r, r ∈ kept -> significant r = true)
    by (intros r Hr; by apply mainLandFeatures_kept in Hr as [_ ?]).
  assert (Hsorted : StronglySorted (heavierFirst areaWeight) kept).
  { unfold kept, mainLandFeatures. destruct (sorted_significant rings) as [Hs _].
    rewrite <- (take_drop 50 (sortBy _ _)) in Hs. by apply StronglySorted_app_1_l in Hs. }
  unfold mainLandFeatures at 1. unfold significantRings. rewrite (filter_all _ _ Hsig).
  rewrite (sortBy_sorted_id _ areaWeight (fun r => significant r = true));
    [| apply byAreaDescending_weight | by apply Forall_forall | done].
  apply take_ge. apply mainLandFeatures_length.
Qed.

(** * The two scripts, one after the other *)

Lemma island_id_inj (i j : nat) :
  "island-" +:+ Num.decimal (Z.of_nat i) = "island-" +:+ Num.decimal (Z.of_nat j) -> i = j.
Proof.
  intros H. simpl in H. injection H as H. apply decimal_inj in H; lia.
Qed.

Lemma combinedFeatures_id (islands : list GeoJson.Feature) (k : nat) (f : GeoJson.Feature) :
  combinedFeatures islands !! k = Some f ->
  GeoJson.properties f !! "id"
  = Some (GeoJson.Str match k with
                      | O => "mainland"
                      | S i => "island-" +:+ Num.decimal (Z.of_nat i)
                      end).
Proof.
  unfold combinedFeatures. destruct k as [| i].
  - by intros [= <-].
  - change ((mainlandFeature :: ?l) !! S i) with (l !! i). rewrite list_lookup_imap.
    destruct (islands !! i); [| done]. intros [= <-]. by rewrite relabel_properties.
Qed.

(** X10.  The features of the combined collection have pairwise different
    [id]s. *)
Theorem combined_ids_differ (islands : list GeoJson.Feature) (i j : nat)
    (f g : GeoJson.Feature) :
  i ≠ j ->
  combinedFeatures islands !! i = Some f -> combinedFeatures islands !! j = Some g ->
  GeoJson.properties f !! "id" ≠ GeoJson.properties g !! "id".
Proof.
  intros Hij Hf%combinedFeatures_id Hg%combinedFeatures_id. rewrite Hf, Hg.
  destruct i as [| i], j as [| j]; try done.
  intros H. assert (i = j); [| lia]. apply island_id_inj. congruence.
Qed.

Lemma combined_ids_differ_witness :
  GeoJson.properties mainlandFeature !! "id"
  ≠ GeoJson.properties (relabel 0 (landFeature 0 unitSquare)) !! "id".
Proof.
  apply (combined_ids_differ [landFeature 0 unitSquare] 0 1); [lia | reflexivity..].
Defined.

(** * Order of binary64 numbers *)

Lemma SFcompare_swap (x y : spec_float) :
  SFcompare y x = option_map CompOpp (SFcompare x y).
Proof.
  destruct x as [[] | [] | | [] mx ex], y as [[] | [] | | [] my ey]; try reflexivity;
    cbn [SFcompare option_map]; f_equal; rewrite (Z.compare_antisym ex ey);
    destruct (ex ?= ey)%Z; cbn [CompOpp]; try reflexivity;
    rewrite (Pos.compare_cont_antisym mx my Eq); cbn [CompOpp];
    by destruct (Pos.compare_cont Eq mx my).
Qed.

Lemma SFcompare_refl (x : spec_float) : x ≠ S754_nan -> SFcompare x x = Some Eq.
Proof.
  destruct x as [[] | [] | | [] m e]; try done; intros _; cbn [SFcompare];
    rewrite Z.compare_refl, Pos.compare_cont_refl; done.
Qed.

Lemma compare_cont_spec (m n : positive) :
  CompareSpec (m = n) (m < n)%positive (n < m)%positive (Pos.compare_cont Eq m n).
Proof. exact (Pos.compare_spec m n). Qed.

Lemma SFcompare_trans (x y z : spec_float) (c : comparison) :
  c ≠ Eq ->
  (SFcompare x y = Some c ∨ SFcompare x y = Some Eq) ->
  (SFcompare y z = Some c ∨ SFcompare y z = Some Eq) ->
  SFcompare x z = Some c ∨ SFcompare x z = Some Eq.
Proof.
  intros Hc.
  destruct x as [[] | [] | | [] mx ex], y as [[] | [] | | [] my ey], z as [[] | [] | | [] mz ez];
    cbn [SFcompare];
    try (intros [? | ?] [? | ?]; (by left) || (by right) || congruence);
    destruct (Z.compare_spec ex ey), (Z.compare_spec ey ez), (Z.compare_spec ex ez);
    try lia; subst;
    try (intros [? | ?] [? | ?]; (by left) || (by right) || congruence);
    destruct (compare_cont_spec mx my), (compare_cont_spec my mz), (compare_cont_spec mx mz);
    try lia; subst; cbn [CompOpp]; try lia;
    intros [? | ?] [? | ?]; (by left) || (by right) || congruence.
Qed.

Lemma leb_compare (x y : float) :
  (x <=? y)%float = true
  <-> SFcompare (Prim2SF x) (Prim2SF y) = Some Lt ∨ SFcompare (Prim2SF x) (Prim2SF y) = Some Eq.
Proof.
  rewrite FloatAxioms.leb_spec. unfold SFleb.
  destruct (SFcompare _ _) as [[] |]; split; intros H; auto; try discriminate H;
    destruct H as [H | H]; discriminate H.
Qed.

Lemma ltb_compare (x y : float) :
  (x <? y)%float = true <-> SFcompare (Prim2SF x) (Prim2SF y) = Some Lt.
Proof.
  rewrite FloatAxioms.ltb_spec. unfold SFltb.
  destruct (SFcompare _ _) as [[] |]; split; done.
Qed.

Lemma eqb_compare (x y : float) :
  (x =? y)%float = true <-> SFcompare (Prim2SF x) (Prim2SF y) = Some Eq.
Proof.
  rewrite FloatAxioms.eqb_spec. unfold SFeqb.
  destruct (SFcompare _ _) as [[] |]; split; done.
Qed.

Lemma leb_trans (x y z : float) :
  (x <=? y)%float = true -> (y <=? z)%float = true -> (x <=? z)%float = true.
Proof. rewrite !leb_compare. by apply SFcompare_trans. Qed.

Lemma leb_antisym (x y : float) :
  (x <=? y)%float = true -> (y <=? x)%float = true -> (x =? y)%float = true.
Proof.
  rewrite !leb_compare, eqb_compare, (SFcompare_swap (Prim2SF x) (Prim2SF y)).
  destruct (SFcompare (Prim2SF x) (Prim2SF y)) as [[] |]; cbn [option_map CompOpp];
    intros [? | ?] [? | ?]; congruence.
Qed.

Lemma leb_number (x y : float) :
  (x <=? y)%float = true -> (x =? x)%float = true ∧ (y =? y)%float = true.
Proof.
  rewrite leb_compare, !eqb_compare. intros H.
  split; apply SFcompare_refl; intros E; rewrite E in H;
    destruct H as [H | H]; try discriminate H;
    destruct (Prim2SF x) as [[] | [] | | [] ? ?]; discriminate H.
Qed.

Lemma ltb_leb_trans (x y z : float) :
  (x <? y)%float = true -> (y <=? z)%float = true -> (x <? z)%float = true.
Proof.
  rewrite !ltb_compare, leb_compare. intros Hxy Hyz.
  destruct (SFcompare_trans (Prim2SF x) (Prim2SF y) (Prim2SF z) Lt) as [H | H];
    [done | by left | exact Hyz | exact H |].
  exfalso.
  assert (Hzx : SFcompare (Prim2SF z) (Prim2SF x) = Some Eq)
    by (by rewrite SFcompare_swap, H).
  destruct (SFcompare_trans (Prim2SF y) (Prim2SF z) (Prim2SF x) Lt) as [H' | H'];
    [done | exact Hyz | by right | |];
    rewrite (SFcompare_swap (Prim2SF x) (Prim2SF y)), Hxy in H'; discriminate H'.
Qed.

(** * The travel-time filter *)

(** X11.  Thumb positions between 0 and 90 survive the trip through the
    filter value and back: [rangeToSlider] gives the positions that
    [sliderToRange] was given, as [===] compares them. *)
Theorem slider_positions_restored (min max : float) :
  (SLIDER_MIN <=? min)%float = true -> (max <=? SLIDER_MAX)%float = true ->
  let restored := rangeToSlider (sliderToRange min max) in
  (Slider.min restored =? min)%float = true ∧ (Slider.max restored =? max)%float = true.
Proof.
  intros Hmin Hmax. unfold sliderToRange.
  destruct (leb_number _ _ Hmin) as [_ Hmin']. destruct (leb_number _ _ Hmax) as [Hmax' _].
  destruct (min <=? SLIDER_MIN)%float eqn:E1, (SLIDER_MAX <=? max)%float eqn:E2;
    cbn [andb rangeToSlider Slider.min Slider.max Range.min Range.max default from_option id];
    repeat split; try assumption; by apply leb_antisym.
Qed.

Lemma slider_positions_restored_witness :
  let restored := rangeToSlider (sliderToRange 15 90) in
  (Slider.min restored =? 15)%float = true ∧ (Slider.max restored =? 90)%float = true.
Proof. apply slider_positions_restored; reflexivity. Defined.

(** X12.  A filter value that [sliderToRange] gave comes back unchanged
    from the thumb positions [rangeToSlider] shows for it, whatever the
    numbers: the null filter from (0, 90), an open range from (min, 90). *)
Theorem filter_value_restored (min max : float) :
  let value := sliderToRange min max in
  let shown := rangeToSlider value in
  sliderToRange (Slider.min shown) (Slider.max shown) = value.
Proof.
  cbv zeta. unfold sliderToRange.
  destruct (min <=? SLIDER_MIN)%float eqn:E1, (SLIDER_MAX <=? max)%float eqn:E2;
    cbn [andb rangeToSlider Slider.min Slider.max Range.min Range.max default from_option id];
    rewrite ?E1, ?E2; reflexivity.
Qed.

(** X13.  A travel time inside a range is inside every wider range. *)
Theorem wider_range_keeps (minutes : float) (range wider : Range.TravelTimeRange) :
  within_range range wider ->
  travelTimeInRange minutes range = true -> travelTimeInRange minutes wider = true.
Proof.
  intros [Hmin Hmax]. unfold travelTimeInRange.
  destruct (minutes <? Range.min range)%float eqn:E; [done |].
  destruct (minutes <? Range.min wider)%float eqn:E'.
  - by rewrite (ltb_leb_trans _ _ _ E' Hmin) in E.
  - destruct (Range.max range) as [m |], (Range.max wider) as [m' |]; try done.
    intros H. by apply (leb_trans _ m).
Qed.

Lemma wider_range_keeps_witness :
  travelTimeInRange 20 {| Range.min := 10; Range.max := None |} = true.
Proof.
  apply (wider_range_keeps 20 {| Range.min := 15; Range.max := Some 30%float |}).
  - split; reflexivity.
  - reflexivity.
Defined.

(** * Zoom levels *)

(** X14.  The hexagon resolution is one of 6, 7, 8 and 9 for every zoom,
    NaN included, and it never falls when the zoom grows. *)
Theorem resolution_follows_zoom :
  (∀ zoom, getH3ResolutionForZoom zoom ∈ [6; 7; 8; BASE_H3_RESOLUTION]%float)
  ∧ (∀ zoom zoom', (zoom <=? zoom')%float = true ->
       (getH3ResolutionForZoom zoom <=? getH3ResolutionForZoom zoom')%float = true).
Proof.
  split.
  - intros zoom. unfold getH3ResolutionForZoom.
    repeat (destruct (_ <=? _)%float; [set_solver |]). set_solver.
  - intros zoom zoom' H. unfold getH3ResolutionForZoom.
    destruct (zoom' <=? 10)%float eqn:E10.
    { by rewrite (leb_trans _ _ _ H E10). }
    destruct (zoom' <=? 12)%float eqn:E12.
    { rewrite (leb_trans _ _ _ H E12). by destruct (zoom <=? 10)%float. }
    destruct (zoom' <=? 13)%float eqn:E13.
    { rewrite (leb_trans _ _ _ H E13).
      by destruct (zoom <=? 10)%float, (zoom <=? 12)%float. }
    by destruct (zoom <=? 10)%float, (zoom <=? 12)%float, (zoom <=? 13)%float.
Qed.

Lemma resolution_follows_zoom_witness :
  (getH3ResolutionForZoom 11 <=? getH3ResolutionForZoom 14)%float = true.
Proof. apply (proj2 resolution_follows_zoom). reflexivity. Defined.
